(** * FixedBufferAllocator: a shallow embedding of [memory_allocator.py]

    The allocator keeps a buffer of fixed length, a list of live
    allocations and a list of free blocks, both lists holding
    [(start, size)] pairs of Python integers.  Methods mutate the
    object in place and signal errors by raising; here every method is
    a function from the object's state to an outcome (a returned value
    or a raised exception) paired with the state the object is left in. *)

From Stdlib Require Import ZArith Lia.
From stdpp Require Import base decidable numbers list sorting strings.
From Equations Require Import Equations.

Local Open Scope Z_scope.

(** ** Python values used by the allocator *)

(** The exceptions the source can raise.  [ValueError] and [MemoryError]
    are raised explicitly, each with a message; [IndexError] is what list
    indexing and [list.pop] raise out of range; [OverflowError], and
    [MemoryError] with no message (the empty string here), are what
    building a list by repetition raises when the list is too long. *)
Inductive exception : Type :=
  | ValueError (msg : string)
  | MemoryError (msg : string)
  | IndexError (msg : string)
  | OverflowError (msg : string).

Inductive result (A : Type) : Type :=
  | Return (a : A)
  | Raise (e : exception).
Arguments Return {A} a.
Arguments Raise {A} e.

#[global] Instance exception_eq_dec : EqDecision exception.
Proof. solve_decision. Defined.

(** A block is the tuple [(start, size)]. *)
Abbreviation block := (Z * Z)%type.

(** [len(l)] as a Python integer. *)
Definition len {A} (l : list A) : Z := Z.of_nat (length l).

(** [l[i]] with Python's indexing: a negative index counts from the end,
    and an index outside [-len(l), len(l))] raises [IndexError] ([None]). *)
Definition getitem {A} (l : list A) (i : Z) : option A :=
  if decide (0 ≤ i) then l !! Z.to_nat i
  else if decide (0 ≤ len l + i) then l !! Z.to_nat (len l + i)
  else None.

(** Python compares tuples lexicographically; [tuple_le x y] is [x <= y]. *)
Definition tuple_le (x y : block) : Prop :=
  x.1 < y.1 ∨ (x.1 = y.1 ∧ x.2 ≤ y.2).

#[global] Instance tuple_le_dec : RelDecision tuple_le.
Proof. intros x y. unfold tuple_le. apply _. Defined.

(** [list.sort()] on a list of integer pairs: the result is the ascending
    arrangement of the same elements.  Pairs that compare equal are equal,
    so that arrangement is unique and any sorting algorithm yields it
    ([list_sort_unique] below). *)
Definition list_sort (l : list block) : list block := merge_sort tuple_le l.

(** ** The allocator object *)

Record FixedBufferAllocator : Type := mkAllocator {
  buffer : list (option Z);
  allocations : list block;
  free_blocks : list block
}.

(** The [buffer_size] property: [len(self.buffer)]. *)
Definition buffer_size (self : FixedBufferAllocator) : Z := len (buffer self).

(** The object the three assignments of [__init__] build when the buffer
    can be built.  [[None] * buffer_size] is the empty list when
    [buffer_size <= 0]. *)
Definition new (buffer_size : Z) : FixedBufferAllocator :=
  {| buffer := replicate (Z.to_nat buffer_size) None;
     allocations := [];
     free_blocks := [(0, buffer_size)] |}.

(** The limits of the interpreter a list is built in: [maxsize] is
    [sys.maxsize], the largest index, and [memory] the length of the
    longest list of [None] that can be allocated when the call is made. *)
Record interpreter : Type := mkInterpreter {
  maxsize : Z;
  memory : Z
}.

(** [[None] * n].  A count that does not fit an index raises
    [OverflowError], whatever its sign; a count that fits and is not
    positive gives the empty list; a positive count gives that many
    [None], or [MemoryError] when the list cannot be allocated. *)
Definition repeat_None (py : interpreter) (n : Z) : result (list (option Z)) :=
  if decide (n < - maxsize py - 1 ∨ maxsize py < n)
  then Raise (OverflowError "cannot fit 'int' into an index-sized integer")
  else if decide (n ≤ 0) then Return []
  else if decide (memory py < n) then Raise (MemoryError "")
  else Return (replicate (Z.to_nat n) None).

(** [__init__] checks nothing itself: it fails only when the buffer cannot
    be built, and otherwise makes the three assignments. *)
Definition __init__ (py : interpreter) (buffer_size : Z)
  : result FixedBufferAllocator :=
  match repeat_None py buffer_size with
  | Raise e => Raise e
  | Return buffer =>
      Return {| buffer := buffer;
                allocations := [];
                free_blocks := [(0, buffer_size)] |}
  end.

(** CPython on a 64-bit machine able to allocate lists up to [memory]. *)
Definition cpython64 (memory : Z) : interpreter :=
  {| maxsize := 2 ^ 63 - 1; memory := memory |}.

(** *** allocate *)

(** The exceptions the methods raise, under the names the specification
    gives to the conditions. *)
Definition InvalidSizeError : exception :=
  ValueError "Size must be greater than 0".
Definition CapacityExceededError : exception :=
  MemoryError "Requested size exceeds buffer capacity".
Definition OutOfMemoryError : exception :=
  MemoryError "Out of memory".
Definition InvalidPointerError : exception :=
  ValueError "Invalid pointer".
Definition list_index_out_of_range : exception :=
  IndexError "list index out of range".

(** The [while left <= right] loop of [allocate], as a function of the
    loop variables [left] and [right].  [Return (Some mid)] is the [break],
    [Return None] is the loop running out into its [else] clause.  The
    interval shrinks at every turn, which is the termination measure. *)
Equations? search (free_blocks : list block) (size left_ right_ : Z)
  : result (option Z) by wf (Z.to_nat (right_ - left_ + 1)) lt :=
  search free_blocks size left_ right_ with decide (left_ ≤ right_) := {
    | right _ := Return None
    | left _ :=
        let mid := (left_ + right_) `div` 2 in
        match getitem free_blocks mid with
        | None => Raise list_index_out_of_range
        | Some (start, block_size) =>
            if decide (size ≤ block_size) then
              if decide (mid = 0) then Return (Some mid)
              else
                match getitem free_blocks (mid - 1) with
                | None => Raise list_index_out_of_range
                | Some prev =>
                    if decide (prev.2 < size) then Return (Some mid)
                    else search free_blocks size left_ (mid - 1)
                end
            else search free_blocks size (mid + 1) right_
        end }.
Proof.
  all: pose proof (Z.div_mod (left_ + right_) 2 ltac:(lia));
    pose proof (Z.mod_pos_bound (left_ + right_) 2 ltac:(lia)); lia.
Qed.

(** [allocate].  The loop starts at [left = 0], so [mid] is never negative
    ([search_spec]) and [pop(mid)] and the assignment to
    [free_blocks[mid]] act on that position of the list. *)
Definition allocate (size : Z) (self : FixedBufferAllocator)
  : result Z * FixedBufferAllocator :=
  if decide (size ≤ 0) then (Raise InvalidSizeError, self)
  else if decide (size > buffer_size self) then (Raise CapacityExceededError, self)
  else
    match search (free_blocks self) size 0 (len (free_blocks self) - 1) with
    | Raise e => (Raise e, self)
    | Return None => (Raise OutOfMemoryError, self)
    | Return (Some mid) =>
        match getitem (free_blocks self) mid with
        | None => (Raise list_index_out_of_range, self)
        | Some (start, block_size) =>
            let free_blocks' :=
              if decide (block_size = size)
              then delete (Z.to_nat mid) (free_blocks self)
              else <[Z.to_nat mid := (start + size, block_size - size)]>
                     (free_blocks self) in
            (Return start,
             {| buffer := buffer self;
                allocations := allocations self ++ [(start, size)];
                free_blocks := free_blocks' |})
        end
    end.

(** *** defragment *)

(** The merging [while i < len(self.free_blocks) - 1] loop, started on the
    sorted list.  [i] only ever counts up from [0], so it is a natural
    number; under the loop guard both [i] and [i+1] are valid indices, so
    the in-place update [free_blocks[i] = merged] and [pop(i+1)] are the
    list's insert and delete at those positions. *)
Equations? defragment_loop (free_blocks : list block) (i : nat)
  : result unit * list block by wf (length free_blocks - i)%nat lt :=
  defragment_loop free_blocks i with decide (Z.of_nat i < len free_blocks - 1) := {
    | right _ := (Return (), free_blocks)
    | left _ :=
        match free_blocks !! i, free_blocks !! S i with
        | Some current, Some next_block =>
            if decide (current.1 + current.2 = next_block.1) then
              let merged := (current.1, current.2 + next_block.2) in
              defragment_loop (delete (S i) (<[i := merged]> free_blocks)) i
            else defragment_loop free_blocks (S i)
        | _, _ => (Raise list_index_out_of_range, free_blocks)
        end }.
Proof.
  all: unfold len in *.
  - rewrite length_delete.
    + rewrite length_insert. lia.
    + apply lookup_lt_is_Some. rewrite length_insert. lia.
  - lia.
Qed.

(** [defragment]: sort the free list in place, then run the loop. *)
Definition defragment (self : FixedBufferAllocator)
  : result unit * FixedBufferAllocator :=
  let '(r, free_blocks') := defragment_loop (list_sort (free_blocks self)) 0 in
  (r, {| buffer := buffer self;
         allocations := allocations self;
         free_blocks := free_blocks' |}).

(** [_defragment_if_needed]: defragment when the free blocks outnumber
    twice the allocations. *)
Definition _defragment_if_needed (self : FixedBufferAllocator)
  : result unit * FixedBufferAllocator :=
  if decide (len (free_blocks self) > len (allocations self) * 2)
  then defragment self
  else (Return (), self).

(** *** free *)

(** The [for i, (start, size) in enumerate(self.allocations)] scan: the
    index and size of the first allocation starting at [ptr]. *)
Fixpoint find_allocation (ptr : Z) (allocations : list block) (i : nat)
  : option (nat * Z) :=
  match allocations with
  | [] => None
  | (start, size) :: rest =>
      if decide (start = ptr) then Some (i, size)
      else find_allocation ptr rest (S i)
  end.

(** [free].  The first allocation starting at [ptr] is popped, its block
    appended to the free list, and the method returns; the loop running
    out raises. *)
Definition free (ptr : Z) (self : FixedBufferAllocator)
  : result unit * FixedBufferAllocator :=
  if decide (¬ (0 ≤ ptr < len (buffer self))) then (Raise InvalidPointerError, self)
  else
    match find_allocation ptr (allocations self) 0 with
    | Some (i, size) =>
        _defragment_if_needed
          {| buffer := buffer self;
             allocations := delete i (allocations self);
             free_blocks := free_blocks self ++ [(ptr, size)] |}
    | None => (Raise InvalidPointerError, self)
    end.

(** ** Sequences of calls *)

Inductive call : Type :=
  | Allocate (size : Z)
  | Free (ptr : Z)
  | Defragment.

(** The state the object is in after one call, whether it returned or
    raised (the caller catches the exception and carries on). *)
Definition step (self : FixedBufferAllocator) (c : call) : FixedBufferAllocator :=
  match c with
  | Allocate size => (allocate size self).2
  | Free ptr => (free ptr self).2
  | Defragment => (defragment self).2
  end.

Definition run (calls : list call) (self : FixedBufferAllocator)
  : FixedBufferAllocator :=
  foldl step self calls.

(** States reachable from an allocator constructed with [capacity]. *)
Definition reachable_from (capacity : Z) (self : FixedBufferAllocator) : Prop :=
  ∃ calls, self = run calls (new capacity).

Definition reachable (self : FixedBufferAllocator) : Prop :=
  ∃ capacity, reachable_from capacity self.

(** * Vocabulary of the properties *)

(** ** The search loop *)

(** What the loop's [break] establishes: the index lies in the searched
    interval, the block there is large enough, and it is the first block
    of the list or its predecessor in the list is too small. *)
Definition found_at (free_blocks : list block) (size mid : Z) : Prop :=
  ∃ start block_size,
    getitem free_blocks mid = Some (start, block_size) ∧ size ≤ block_size ∧
    (mid = 0 ∨ ∃ prev, getitem free_blocks (mid - 1) = Some prev ∧ prev.2 < size).

(** ** Merging as a recursion on the list *)

(** The loop as a recursion on the list: [current] is the block at index
    [i], [rest] what follows it. *)
Fixpoint coalesce_from (current : block) (rest : list block) : list block :=
  match rest with
  | [] => [current]
  | next_block :: rest' =>
      if decide (current.1 + current.2 = next_block.1)
      then coalesce_from (current.1, current.2 + next_block.2) rest'
      else current :: coalesce_from next_block rest'
  end.

Definition coalesce (l : list block) : list block :=
  match l with
  | [] => []
  | current :: rest => coalesce_from current rest
  end.

(** ** Counting the blocks over an index *)

(** [covers x b]: index [x] lies in the range [[start, start + size)]. *)
Definition covers (x : Z) (b : block) : Prop := b.1 ≤ x < b.1 + b.2.

#[global] Instance covers_dec x b : Decision (covers x b).
Proof. unfold covers. apply _. Defined.

(** How many blocks of the list lie over index [x]. *)
Definition cover (x : Z) (l : list block) : nat :=
  length (filter (covers x) l).

(** The contribution of one block to the count. *)
Definition over (x : Z) (b : block) : nat :=
  if decide (covers x b) then 1%nat else 0%nat.

(** ** States after a successful call *)

(** The state after a successful [allocate] that took its block at list
    index [mid], where the free block [(start, block_size)] was. *)
Definition allocated (self : FixedBufferAllocator) (size : Z) (mid : nat)
    (start block_size : Z) : FixedBufferAllocator :=
  {| buffer := buffer self;
     allocations := allocations self ++ [(start, size)];
     free_blocks :=
       if decide (block_size = size) then delete mid (free_blocks self)
       else <[mid := (start + size, block_size - size)]> (free_blocks self) |}.

(** The state [free] hands to [_defragment_if_needed]. *)
Definition released (self : FixedBufferAllocator) (i : nat) (ptr size : Z)
  : FixedBufferAllocator :=
  {| buffer := buffer self;
     allocations := delete i (allocations self);
     free_blocks := free_blocks self ++ [(ptr, size)] |}.

(** ** The partition invariant *)

(** All blocks the allocator holds, live and free. *)
Definition blocks (self : FixedBufferAllocator) : list block :=
  allocations self ++ free_blocks self.

Definition positive (l : list block) : Prop := Forall (λ b, 1 ≤ b.2) l.

(** Every index of [[0, capacity)] lies under exactly one block and no
    other index lies under any; every block has a positive size. *)
Record partitions (capacity : Z) (self : FixedBufferAllocator) : Prop := {
  partitions_size : buffer_size self = capacity;
  partitions_positive : positive (blocks self);
  partitions_cover : ∀ x,
    cover x (blocks self) = if decide (0 ≤ x < capacity) then 1%nat else 0%nat
}.

(** ** The shape of a defragmented free list *)

(** [chain lo l]: the blocks have positive sizes, start at or after [lo],
    and each starts at or after the end of the one before. *)
Fixpoint chain (lo : Z) (l : list block) : Prop :=
  match l with
  | [] => True
  | b :: t => lo ≤ b.1 ∧ 1 ≤ b.2 ∧ chain (b.1 + b.2) t
  end.

(** [separated lo l]: as [chain], with a gap of at least one index between
    consecutive blocks. *)
Fixpoint separated (lo : Z) (l : list block) : Prop :=
  match l with
  | [] => True
  | b :: t => lo ≤ b.1 ∧ 1 ≤ b.2 ∧ separated (b.1 + b.2 + 1) t
  end.

(** The free list [defragment] leaves, as a function of the one it finds. *)
Definition defragmented (l : list block) : list block :=
  coalesce (list_sort l).

(** ** Best fit *)

(** The specification's selection rule: [chosen] is a free block of the
    least size among those of size at least [size], and among those of
    that size the one with the lowest start. *)
Definition best_fit (free_blocks : list block) (size : Z) (chosen : block) : Prop :=
  chosen ∈ free_blocks ∧ size ≤ chosen.2 ∧
  ∀ b, b ∈ free_blocks → size ≤ b.2 →
       chosen.2 < b.2 ∨ (chosen.2 = b.2 ∧ chosen.1 ≤ b.1).

(** ** Sizes and layouts *)

(** The sum of the sizes of a list of blocks. *)
Fixpoint total_size (l : list block) : Z :=
  match l with
  | [] => 0
  | b :: rest => b.2 + total_size rest
  end.

(** Blocks of the given sizes laid back to back from [start]. *)
Fixpoint back_to_back (start : Z) (sizes : list Z) : list block :=
  match sizes with
  | [] => []
  | size :: rest => (start, size) :: back_to_back (start + size) rest
  end.

(** The sum of a list of sizes. *)
Fixpoint sum_sizes (sizes : list Z) : Z :=
  match sizes with
  | [] => 0
  | size :: rest => size + sum_sizes rest
  end.

(** * Properties *)

(** ** The scenario of the specification *)

Example scenario_allocate : (allocate 5 (new 20)).1 = Return 0.
Proof. by vm_compute. Qed.

Example scenario_free_blocks :
  free_blocks
    (run [Allocate 5; Allocate 5; Free 0; Free 5; Defragment] (new 20))
  = [(0, 20)].
Proof. by vm_compute. Qed.

(** ** Indexing *)

Lemma getitem_nonneg {A} (l : list A) (i : Z) :
  0 ≤ i → getitem l i = l !! Z.to_nat i.
Proof. intros Hi. unfold getitem. by rewrite decide_True. Qed.

Lemma getitem_in_range {A} (l : list A) (i : Z) :
  0 ≤ i < len l → is_Some (getitem l i).
Proof.
  intros Hi. rewrite getitem_nonneg by lia.
  apply lookup_lt_is_Some. unfold len in Hi. lia.
Qed.

Lemma getitem_Some_nonneg {A} (l : list A) (i : Z) (x : A) :
  0 ≤ i → getitem l i = Some x → i < len l.
Proof.
  intros Hi. rewrite getitem_nonneg by done. intros H%lookup_lt_Some.
  unfold len. lia.
Qed.

(** ** The search loop of [allocate] *)

Lemma div2_between (a b : Z) : a ≤ b → a ≤ (a + b) `div` 2 ≤ b.
Proof.
  intros. pose proof (Z.div_mod (a + b) 2 ltac:(lia)).
  pose proof (Z.mod_pos_bound (a + b) 2 ltac:(lia)). lia.
Qed.

(** One turn of the loop. *)
Lemma search_turn (fb : list block) (size l r : Z) :
  search fb size l r =
  if decide (l ≤ r) then
    let mid := (l + r) `div` 2 in
    match getitem fb mid with
    | None => Raise list_index_out_of_range
    | Some (start, block_size) =>
        if decide (size ≤ block_size) then
          if decide (mid = 0) then Return (Some mid)
          else
            match getitem fb (mid - 1) with
            | None => Raise list_index_out_of_range
            | Some prev =>
                if decide (prev.2 < size) then Return (Some mid)
                else search fb size l (mid - 1)
            end
        else search fb size (mid + 1) r
    end
  else Return None.
Proof.
  rewrite search_equation_1.
  destruct (decide (l ≤ r)); by simp search.
Qed.

Lemma search_spec (fb : list block) (size l r : Z) :
  0 ≤ l → r < len fb →
  match search fb size l r with
  | Raise _ => False
  | Return None => True
  | Return (Some mid) => l ≤ mid ≤ r ∧ found_at fb size mid
  end.
Proof.
  remember (Z.to_nat (r - l + 1)) as n eqn:Hn.
  revert l r Hn. induction (lt_wf n) as [n _ IH]. intros l r -> Hl Hr.
  rewrite search_turn. destruct (decide (l ≤ r)) as [Hlr|]; [|done].
  cbv zeta. pose proof (div2_between _ _ Hlr) as Hmid.
  set (mid := (l + r) `div` 2) in *.
  destruct (getitem_in_range fb mid ltac:(lia)) as [[start bs] Hget].
  rewrite Hget. destruct (decide (size ≤ bs)) as [Hbs|Hbs].
  - destruct (decide (mid = 0)) as [H0|H0].
    { split; [lia|]. exists start, bs. split_and!; auto. }
    destruct (getitem_in_range fb (mid - 1) ltac:(lia)) as [prev Hprev].
    rewrite Hprev. destruct (decide (prev.2 < size)) as [Hp|Hp].
    { split; [lia|]. exists start, bs. split_and!; eauto. }
    specialize (IH (Z.to_nat (mid - 1 - l + 1)) ltac:(lia) l (mid - 1) eq_refl
                   ltac:(lia) ltac:(lia)).
    destruct (search fb size l (mid - 1)) as [[m|]|]; [|done..].
    destruct IH as [? ?]. split; [lia|done].
  - specialize (IH (Z.to_nat (r - (mid + 1) + 1)) ltac:(lia) (mid + 1) r eq_refl
                 ltac:(lia) ltac:(lia)).
    destruct (search fb size (mid + 1) r) as [[m|]|]; [|done..].
    destruct IH as [? ?]. split; [lia|done].
Qed.

(** ** The merging loop of [defragment] *)

(** One turn of the loop. *)
Lemma defragment_loop_turn (fb : list block) (i : nat) :
  defragment_loop fb i =
  if decide (Z.of_nat i < len fb - 1) then
    match fb !! i, fb !! S i with
    | Some current, Some next_block =>
        if decide (current.1 + current.2 = next_block.1) then
          defragment_loop
            (delete (S i) (<[i := (current.1, current.2 + next_block.2)]> fb)) i
        else defragment_loop fb (S i)
    | _, _ => (Raise list_index_out_of_range, fb)
    end
  else (Return (), fb).
Proof.
  rewrite defragment_loop_equation_1.
  destruct (decide (Z.of_nat i < len fb - 1)); by simp defragment_loop.
Qed.

Lemma lookup_next (done_ : list block) (current next_block : block) rest :
  (done_ ++ current :: next_block :: rest) !! S (length done_) = Some next_block.
Proof. induction done_; simpl; auto. Qed.

Lemma merge_in_place (done_ : list block) (current next_block merged : block) rest :
  delete (S (length done_))
    (<[length done_ := merged]> (done_ ++ current :: next_block :: rest)) =
  done_ ++ merged :: rest.
Proof. induction done_; simpl; [done|]. by f_equal. Qed.

Lemma defragment_loop_from (rest : list block) :
  ∀ (current : block) (done_ : list block),
    defragment_loop (done_ ++ current :: rest) (length done_) =
    (Return (), done_ ++ coalesce_from current rest).
Proof.
  induction rest as [|next_block rest IH]; intros current done_;
    rewrite defragment_loop_turn; unfold len; rewrite length_app; simpl.
  - rewrite decide_False by lia. done.
  - rewrite decide_True by lia.
    rewrite list_lookup_middle by done. rewrite lookup_next.
    destruct (decide (current.1 + current.2 = next_block.1)).
    + rewrite merge_in_place. apply IH.
    + specialize (IH next_block (done_ ++ [current])).
      rewrite length_app, <-(assoc_L (++)) in IH. simpl in IH.
      rewrite Nat.add_1_r in IH. rewrite IH.
      by rewrite <-(assoc_L (++)).
Qed.

Lemma defragment_loop_coalesce (fb : list block) :
  defragment_loop fb 0 = (Return (), coalesce fb).
Proof.
  destruct fb as [|current rest].
  - by rewrite defragment_loop_turn.
  - apply (defragment_loop_from rest current []).
Qed.

(** [defragment] never raises, and leaves the coalesced sorted list. *)
Lemma defragment_eq (self : FixedBufferAllocator) :
  defragment self =
  (Return (), {| buffer := buffer self;
                 allocations := allocations self;
                 free_blocks := coalesce (list_sort (free_blocks self)) |}).
Proof. unfold defragment. by rewrite defragment_loop_coalesce. Qed.

(** ** Sorting *)

#[global] Instance tuple_le_total : Total tuple_le.
Proof. intros [a b] [c d]. unfold tuple_le. simpl. lia. Qed.

#[global] Instance tuple_le_trans : Transitive tuple_le.
Proof. intros [a b] [c d] [e f]. unfold tuple_le. simpl. lia. Qed.

#[global] Instance tuple_le_antisymm : AntiSymm (=) tuple_le.
Proof.
  intros [a b] [c d]. unfold tuple_le. simpl. intros ??.
  f_equal; lia.
Qed.

Lemma list_sort_perm (l : list block) : list_sort l ≡ₚ l.
Proof. apply merge_sort_Permutation. Qed.

Lemma list_sort_sorted (l : list block) : StronglySorted tuple_le (list_sort l).
Proof. apply StronglySorted_merge_sort; apply _. Qed.

(** The ascending arrangement of a list of pairs is unique, so
    [list_sort] is the only function [list.sort()] can be. *)
Lemma list_sort_unique (l l' : list block) :
  StronglySorted tuple_le l' → l' ≡ₚ l → list_sort l = l'.
Proof.
  intros Hs Hp. apply (StronglySorted_unique tuple_le).
  - apply list_sort_sorted.
  - done.
  - by rewrite list_sort_perm.
Qed.

(** ** The count of blocks over an index *)

Lemma cover_nil x : cover x [] = 0%nat.
Proof. done. Qed.

Lemma cover_cons x b l : cover x (b :: l) = (over x b + cover x l)%nat.
Proof.
  unfold cover, over. rewrite filter_cons. by destruct (decide (covers x b)).
Qed.

Lemma cover_singleton x b : cover x [b] = over x b.
Proof. rewrite cover_cons, cover_nil. lia. Qed.

Lemma cover_app x l1 l2 : cover x (l1 ++ l2) = (cover x l1 + cover x l2)%nat.
Proof. unfold cover. by rewrite filter_app, length_app. Qed.

Lemma cover_perm x l1 l2 : l1 ≡ₚ l2 → cover x l1 = cover x l2.
Proof. unfold cover. by intros ->. Qed.

Lemma cover_delete x (l : list block) k b :
  l !! k = Some b → cover x l = (over x b + cover x (delete k l))%nat.
Proof.
  intros Hk. rewrite <-(take_drop_middle l k b Hk) at 1.
  rewrite delete_take_drop, !cover_app, cover_cons. lia.
Qed.

Lemma cover_insert x (l : list block) k b b' :
  l !! k = Some b →
  (cover x (<[k := b']> l) + over x b = cover x l + over x b')%nat.
Proof.
  intros Hk. rewrite <-(take_drop_middle l k b Hk) at 2.
  rewrite insert_take_drop by (by eapply lookup_lt_Some).
  rewrite !cover_app, !cover_cons. lia.
Qed.

Lemma cover_elem x (l : list block) b :
  b ∈ l → covers x b → (1 ≤ cover x l)%nat.
Proof.
  intros Hb Hx. apply list_elem_of_lookup in Hb as [k Hk].
  rewrite (cover_delete x l k b Hk). unfold over.
  rewrite decide_True by done. lia.
Qed.

Lemma cover_pos_elem x (l : list block) :
  (1 ≤ cover x l)%nat → ∃ b, b ∈ l ∧ covers x b.
Proof.
  unfold cover. intros H.
  destruct (filter (covers x) l) as [|b t] eqn:E; [simpl in H; lia|].
  assert (b ∈ filter (covers x) l) as Hb by (rewrite E; left).
  apply list_elem_of_filter in Hb as [? ?]. eauto.
Qed.

(** Two blocks at different positions of a list, both over [x], make the
    count at least two. *)
Lemma cover_two x (l : list block) i j a b :
  i ≠ j → l !! i = Some a → l !! j = Some b →
  covers x a → covers x b → (2 ≤ cover x l)%nat.
Proof.
  intros Hij Hi Hj Ha Hb.
  rewrite (cover_delete x l i a Hi). unfold over at 1.
  rewrite decide_True by done.
  enough (1 ≤ cover x (delete i l))%nat by lia.
  apply (cover_elem x _ b); [|done].
  apply list_elem_of_lookup.
  destruct (decide (j < i)%nat).
  - exists j. by rewrite list_lookup_delete_lt by done.
  - exists (pred j). rewrite list_lookup_delete_ge by lia.
    by replace (S (pred j)) with j by lia.
Qed.

(** ** What each method does *)

Lemma allocate_Return size self start self' :
  allocate size self = (Return start, self') →
  0 < size ≤ buffer_size self ∧
  ∃ (mid : nat) (block_size : Z),
    free_blocks self !! mid = Some (start, block_size) ∧
    size ≤ block_size ∧
    (mid = 0%nat ∨
     ∃ prev, free_blocks self !! pred mid = Some prev ∧ prev.2 < size) ∧
    self' = allocated self size mid start block_size.
Proof.
  unfold allocate.
  destruct (decide (size ≤ 0)); [done|].
  destruct (decide (size > buffer_size self)); [done|].
  pose proof (search_spec (free_blocks self) size 0 (len (free_blocks self) - 1)
                ltac:(lia) ltac:(lia)) as Hs.
  destruct (search _ _ _ _) as [[mid|]|]; [|done..].
  destruct Hs as [Hmid (st & bs & Hget & Hbs & Hprev)].
  rewrite Hget. intros [= <- <-]. split; [lia|].
  exists (Z.to_nat mid), bs. rewrite getitem_nonneg in Hget by lia.
  split_and!; [done..| |done].
  destruct Hprev as [->|(prev & Hp & Hlt)]; [by left|].
  destruct (decide (mid = 0)) as [->|]; [by left|]. right. exists prev.
  rewrite getitem_nonneg in Hp by lia.
  by replace (pred (Z.to_nat mid)) with (Z.to_nat (mid - 1)) by lia.
Qed.

Lemma allocate_Raise size self e self' :
  allocate size self = (Raise e, self') →
  self' = self ∧
  ((size ≤ 0 ∧ e = InvalidSizeError) ∨
   (0 < size ∧ size > buffer_size self ∧ e = CapacityExceededError) ∨
   (0 < size ≤ buffer_size self ∧ e = OutOfMemoryError ∧
    search (free_blocks self) size 0 (len (free_blocks self) - 1) = Return None)).
Proof.
  unfold allocate.
  destruct (decide (size ≤ 0)); [intros [= <- <-]; auto|].
  destruct (decide (size > buffer_size self));
    [intros [= <- <-]; split; [done|]; right; left; split_and!; [lia|done..]|].
  pose proof (search_spec (free_blocks self) size 0 (len (free_blocks self) - 1)
                ltac:(lia) ltac:(lia)) as Hs.
  destruct (search _ _ _ _) as [[mid|]|]; [| |done].
  - destruct Hs as [Hmid (st & bs & Hget & _)]. by rewrite Hget.
  - intros [= <- <-]. split; [done|]. right; right. split_and!; [lia..|done|done].
Qed.

(** The scan of [free] returns the first allocation starting at [ptr]. *)
Lemma find_allocation_Some ptr (l : list block) (i0 i : nat) size :
  find_allocation ptr l i0 = Some (i, size) →
  ∃ k, i = (i0 + k)%nat ∧ l !! k = Some (ptr, size) ∧
       ∀ j b, (j < k)%nat → l !! j = Some b → b.1 ≠ ptr.
Proof.
  revert i0. induction l as [|[start sz] l IH]; intros i0; simpl; [done|].
  destruct (decide (start = ptr)) as [->|Hne].
  - intros [= <- <-]. exists 0%nat. split_and!; [lia|done|lia].
  - intros (k & -> & Hk & Hfirst)%IH. exists (S k). split_and!; [lia|done|].
    intros [|j] b Hj; simpl.
    + by intros [= <-].
    + apply Hfirst. lia.
Qed.

Lemma find_allocation_None ptr (l : list block) (i0 : nat) :
  find_allocation ptr l i0 = None ↔ ∀ b, b ∈ l → b.1 ≠ ptr.
Proof.
  revert i0. induction l as [|[start sz] l IH]; intros i0; simpl.
  - split; [|done]. intros _ b Hb. by apply elem_of_nil in Hb.
  - destruct (decide (start = ptr)) as [->|Hne].
    + split; [done|]. intros H. exfalso. by apply (H (ptr, sz)); [left|].
    + rewrite IH. split.
      * intros H b [->|Hb]%elem_of_cons; [done|by apply H].
      * intros H b Hb. apply H. by right.
Qed.

Lemma _defragment_if_needed_Return self :
  (_defragment_if_needed self).1 = Return ().
Proof.
  unfold _defragment_if_needed. case_decide; [|done]. by rewrite defragment_eq.
Qed.

Lemma free_cases ptr self :
  (free ptr self = (Raise InvalidPointerError, self) ∧
   (¬ 0 ≤ ptr < buffer_size self ∨ ∀ b, b ∈ allocations self → b.1 ≠ ptr))
  ∨
  (0 ≤ ptr < buffer_size self ∧
   ∃ i size,
     allocations self !! i = Some (ptr, size) ∧
     (∀ j b, (j < i)%nat → allocations self !! j = Some b → b.1 ≠ ptr) ∧
     free ptr self =
       (Return (), (_defragment_if_needed (released self i ptr size)).2)).
Proof.
  unfold free, buffer_size.
  destruct (decide (¬ 0 ≤ ptr < len (buffer self))) as [|Hin]; [left; auto|].
  destruct (find_allocation ptr (allocations self) 0) as [[i size]|] eqn:E.
  - right. apply find_allocation_Some in E as (k & -> & Hk & Hfirst).
    split; [lia|]. exists k, size. split_and!; [done..|].
    fold (released self (0 + k) ptr size).
    pose proof (_defragment_if_needed_Return (released self (0 + k) ptr size)).
    by destruct (_defragment_if_needed _) as [r s']; simpl in *; subst.
  - left. split; [done|]. right. by apply (find_allocation_None ptr _ 0%nat).
Qed.

(** ** Every call preserves the partition invariant *)

Lemma cover_split x (start size block_size : Z) :
  0 < size < block_size →
  (over x (start, size) + over x (start + size, block_size - size)%Z
   = over x (start, block_size))%nat.
Proof. intros. unfold over, covers. simpl. repeat case_decide; lia. Qed.

Lemma new_partitions capacity : 0 < capacity → partitions capacity (new capacity).
Proof.
  intros Hc. split.
  - unfold buffer_size, len. simpl. rewrite length_replicate. lia.
  - apply Forall_singleton. simpl. lia.
  - intros x. unfold blocks. simpl. rewrite cover_singleton.
    unfold over, covers. simpl. repeat case_decide; lia.
Qed.

Lemma allocated_partitions capacity self size mid start block_size :
  partitions capacity self →
  0 < size → free_blocks self !! mid = Some (start, block_size) →
  size ≤ block_size →
  partitions capacity (allocated self size mid start block_size).
Proof.
  intros [Hsz Hpos Hcov] Hsize Hmid Hle. unfold blocks in *. split.
  - done.
  - unfold allocated, blocks, positive in *. simpl.
    rewrite !Forall_app in *. destruct Hpos as [Ha Hf].
    split_and!; [done|apply Forall_singleton; simpl; lia|].
    case_decide.
    + by apply Forall_delete.
    + apply Forall_insert; [done|]. simpl. lia.
  - intros x. rewrite <-Hcov. unfold allocated, blocks. simpl.
    rewrite !cover_app, cover_singleton. case_decide as Heq.
    + subst. rewrite (cover_delete x (free_blocks self) mid _ Hmid). lia.
    + pose proof (cover_insert x _ mid _ (start + size, block_size - size) Hmid).
      pose proof (cover_split x start size block_size ltac:(lia)). lia.
Qed.

Lemma released_partitions capacity self i ptr size :
  partitions capacity self →
  allocations self !! i = Some (ptr, size) →
  partitions capacity (released self i ptr size).
Proof.
  intros [Hsz Hpos Hcov] Hi. unfold blocks in *. split.
  - done.
  - unfold released, blocks, positive in *. simpl.
    rewrite !Forall_app in *. destruct Hpos as [Ha Hf].
    split_and!; [by apply Forall_delete|done|].
    apply Forall_singleton. apply (Forall_lookup_1 _ _ _ _ Ha Hi).
  - intros x. rewrite <-Hcov. unfold released, blocks. simpl.
    rewrite !cover_app, cover_singleton.
    rewrite (cover_delete x (allocations self) i _ Hi). lia.
Qed.

(** Merging keeps sizes positive and the count over every index. *)
Lemma coalesce_from_positive rest :
  ∀ current, 1 ≤ current.2 → positive rest →
             positive (coalesce_from current rest).
Proof.
  unfold positive.
  induction rest as [|next_block rest IH]; intros current Hc Hr; simpl.
  - by apply Forall_singleton.
  - apply Forall_cons in Hr as [Hn Hr]. case_decide.
    + apply IH; [simpl; lia|done].
    + constructor; [done|]. by apply IH.
Qed.

Lemma coalesce_positive l : positive l → positive (coalesce l).
Proof.
  destruct l as [|current rest]; [done|].
  intros [? ?]%Forall_cons. by apply coalesce_from_positive.
Qed.

Lemma cover_coalesce_from x rest :
  ∀ current, 1 ≤ current.2 → positive rest →
             cover x (coalesce_from current rest) = cover x (current :: rest).
Proof.
  unfold positive.
  induction rest as [|next_block rest IH]; intros current Hc Hr; simpl; [done|].
  apply Forall_cons in Hr as [Hn Hr]. case_decide as Hadj.
  - rewrite IH by (simpl; lia || done). rewrite !cover_cons.
    unfold over, covers. simpl. repeat case_decide; lia.
  - rewrite cover_cons, IH by done. by rewrite !cover_cons.
Qed.

Lemma cover_coalesce x l : positive l → cover x (coalesce l) = cover x l.
Proof.
  destruct l as [|current rest]; [done|].
  intros [? ?]%Forall_cons. by apply cover_coalesce_from.
Qed.

Lemma positive_perm l1 l2 : l1 ≡ₚ l2 → positive l1 → positive l2.
Proof. unfold positive. by intros ->. Qed.

Lemma defragment_partitions capacity self :
  partitions capacity self → partitions capacity (defragment self).2.
Proof.
  intros [Hsz Hpos Hcov]. rewrite defragment_eq. cbn [snd].
  unfold blocks, positive in *. apply Forall_app in Hpos as [Ha Hf].
  assert (positive (list_sort (free_blocks self))) as Hs
    by (eapply positive_perm; [symmetry; apply list_sort_perm|done]).
  split; unfold blocks; cbn [allocations free_blocks].
  - done.
  - apply Forall_app. split; [done|]. by apply coalesce_positive.
  - intros x. rewrite <-Hcov, !cover_app. f_equal.
    rewrite cover_coalesce by done. apply cover_perm, list_sort_perm.
Qed.

Lemma _defragment_if_needed_partitions capacity self :
  partitions capacity self →
  partitions capacity (_defragment_if_needed self).2.
Proof.
  intros H. unfold _defragment_if_needed. case_decide; [|done].
  by apply defragment_partitions.
Qed.

Lemma step_partitions capacity self c :
  partitions capacity self → partitions capacity (step self c).
Proof.
  intros H. destruct c as [size|ptr|]; simpl.
  - destruct (allocate size self) as [[start|e] self'] eqn:E; simpl.
    + apply allocate_Return in E as (Hsize & mid & bs & Hmid & Hle & _ & ->).
      apply allocated_partitions; [done|lia|done..].
    + by apply allocate_Raise in E as [-> _].
  - destruct (free_cases ptr self) as [[-> _]|(_ & i & size & Hi & _ & ->)];
      [done|]. simpl.
    by apply _defragment_if_needed_partitions, released_partitions.
  - by apply defragment_partitions.
Qed.

Lemma run_partitions capacity calls :
  ∀ self, partitions capacity self → partitions capacity (run calls self).
Proof.
  induction calls as [|c calls IH]; intros self H; [done|].
  apply IH. by apply step_partitions.
Qed.

Lemma reachable_partitions capacity self :
  0 < capacity → reachable_from capacity self → partitions capacity self.
Proof.
  intros Hc [calls ->]. by apply run_partitions, new_partitions.
Qed.

(** *** What the invariant says about the blocks *)

Lemma partitions_disjoint capacity self i j a b :
  partitions capacity self → i ≠ j →
  blocks self !! i = Some a → blocks self !! j = Some b →
  ∀ x, ¬ (covers x a ∧ covers x b).
Proof.
  intros [_ _ Hcov] Hij Hi Hj x [Ha Hb].
  pose proof (cover_two x _ i j a b Hij Hi Hj Ha Hb) as H2.
  rewrite Hcov in H2. case_decide; lia.
Qed.

Lemma partitions_union capacity self x :
  partitions capacity self →
  0 ≤ x < capacity ↔ ∃ b, b ∈ blocks self ∧ covers x b.
Proof.
  intros [_ _ Hcov]. specialize (Hcov x). split.
  - intros Hx. rewrite decide_True in Hcov by done.
    apply cover_pos_elem. lia.
  - intros (b & Hb & Hxb). pose proof (cover_elem x _ b Hb Hxb).
    case_decide; [done|lia].
Qed.

Lemma partitions_NoDup capacity self :
  partitions capacity self → NoDup (allocations self).*1.
Proof.
  intros Hp. apply NoDup_alt. intros i j start Hi Hj.
  apply list_lookup_fmap_Some in Hi as (a & -> & Ha).
  apply list_lookup_fmap_Some in Hj as (b & Hab & Hb).
  destruct (decide (i = j)) as [|Hij]; [done|]. exfalso.
  assert (1 ≤ a.2 ∧ 1 ≤ b.2) as [? ?].
  { destruct Hp as [_ Hpos _]. unfold positive, blocks in Hpos.
    apply Forall_app in Hpos as [Hpos _].
    split; eapply (Forall_lookup_1 _ _ _ _ Hpos); eauto. }
  apply (partitions_disjoint capacity self i j a b Hp Hij) with (x := a.1).
  - unfold blocks. by apply lookup_app_l_Some.
  - unfold blocks. by apply lookup_app_l_Some.
  - unfold covers. lia.
Qed.

(** *** An allocator built with a non-positive size never changes *)

Lemma step_degenerate capacity c :
  capacity ≤ 0 → step (new capacity) c = new capacity.
Proof.
  intros Hc.
  assert (buffer (new capacity) = []) as Hbuf.
  { simpl. by replace (Z.to_nat capacity) with 0%nat by lia. }
  destruct c as [size|ptr|]; simpl.
  - unfold allocate, buffer_size. rewrite Hbuf.
    destruct (decide (size ≤ 0)); [done|].
    by rewrite decide_True by (unfold len; simpl; lia).
  - unfold free. rewrite Hbuf.
    by rewrite decide_True by (unfold len; simpl; lia).
  - by rewrite defragment_eq.
Qed.

Lemma reachable_degenerate capacity self :
  capacity ≤ 0 → reachable_from capacity self → self = new capacity.
Proof.
  intros Hc [calls ->]. induction calls as [|c calls IH] using rev_ind; [done|].
  unfold run in *. by rewrite foldl_snoc, IH, step_degenerate.
Qed.

(** Every reachable state satisfies the partition invariant or is the
    unchanged state of an allocator built with a non-positive size. *)
Lemma reachable_inv self :
  reachable self →
  (∃ capacity, 0 < capacity ∧ partitions capacity self) ∨
  (∃ capacity, capacity ≤ 0 ∧ self = new capacity).
Proof.
  intros [capacity Hr]. destruct (decide (0 < capacity)).
  - left. exists capacity. split; [done|]. by apply reachable_partitions.
  - right. exists capacity. split; [lia|]. apply reachable_degenerate; [lia|done].
Qed.

Lemma reachable_NoDup self : reachable self → NoDup (allocations self).*1.
Proof.
  intros [(c & _ & Hp)|(c & _ & ->)]%reachable_inv.
  - by eapply partitions_NoDup.
  - constructor.
Qed.

Lemma reachable_step self c : reachable self → reachable (step self c).
Proof.
  intros (capacity & calls & ->). exists capacity, (calls ++ [c]).
  unfold run. by rewrite foldl_snoc.
Qed.

(** ** Defragmented free lists *)

Lemma separated_weaken lo lo' l : lo' ≤ lo → separated lo l → separated lo' l.
Proof. destruct l as [|b t]; simpl; [done|]. intros ? (? & ? & ?). auto with lia. Qed.

Lemma separated_bound lo l b : separated lo l → b ∈ l → lo ≤ b.1 ∧ 1 ≤ b.2.
Proof.
  revert lo. induction l as [|a t IH]; intros lo; simpl.
  - intros _ Hb. by apply elem_of_nil in Hb.
  - intros (? & ? & Ht) [->|Hb]%elem_of_cons; [done|].
    destruct (IH _ Ht Hb). lia.
Qed.

Lemma separated_cover_below lo l x : separated lo l → x < lo → cover x l = 0%nat.
Proof.
  intros Hs Hx. destruct (cover x l) eqn:E; [done|]. exfalso.
  destruct (cover_pos_elem x l ltac:(lia)) as (b & Hb & Hxb).
  destruct (separated_bound lo l b Hs Hb). unfold covers in Hxb. lia.
Qed.

(** A sorted list of positive blocks, no index under two of them, is a chain. *)
Lemma sorted_chain l :
  StronglySorted tuple_le l → positive l → (∀ x, (cover x l ≤ 1)%nat) →
  ∀ lo, (∀ b, b ∈ l → lo ≤ b.1) → chain lo l.
Proof.
  unfold positive. induction 1 as [|b t Hs IH Hb]; intros Hpos Hcov lo Hlo; simpl.
  { done. }
  apply Forall_cons in Hpos as [Hb2 Hpos].
  split_and!; [apply Hlo; left|done|].
  apply IH; [done| |].
  - intros x. specialize (Hcov x). rewrite cover_cons in Hcov. lia.
  - intros c Hc. rewrite Forall_forall in Hb, Hpos.
    specialize (Hb c Hc). specialize (Hpos c Hc). specialize (Hcov c.1).
    rewrite cover_cons in Hcov.
    destruct (decide (b.1 + b.2 ≤ c.1)); [done|]. exfalso.
    assert (covers c.1 c) as Hcc by (unfold covers; lia).
    pose proof (cover_elem c.1 t c Hc Hcc).
    unfold over in Hcov. rewrite decide_True in Hcov; [lia|].
    unfold tuple_le, covers in *. lia.
Qed.

(** Merging a chain leaves gaps everywhere. *)
Lemma coalesce_from_separated rest :
  ∀ current lo,
    lo ≤ current.1 → 1 ≤ current.2 → chain (current.1 + current.2) rest →
    separated lo (coalesce_from current rest).
Proof.
  induction rest as [|next_block rest IH]; intros current lo Hlo Hc Hr; simpl.
  { done. }
  destruct Hr as (Hn1 & Hn2 & Hr). case_decide as Hadj.
  - apply IH; simpl; [done|lia|].
    by replace (current.1 + (current.2 + next_block.2))
      with (next_block.1 + next_block.2) by lia.
  - split_and!; [done..|]. apply IH; [lia|done..].
Qed.

Lemma coalesce_separated lo l : chain lo l → separated lo (coalesce l).
Proof.
  destruct l as [|current rest]; [done|]. simpl. intros (? & ? & ?).
  by apply coalesce_from_separated.
Qed.

(** A separated list is determined by the indices its blocks lie over. *)
Lemma separated_unique l1 :
  ∀ l2 lo, separated lo l1 → separated lo l2 →
           (∀ x, cover x l1 = cover x l2) → l1 = l2.
Proof.
  induction l1 as [|a t1 IH]; intros [|b t2] lo H1 H2 Hcov.
  - done.
  - exfalso. destruct H2 as (_ & ? & _). specialize (Hcov b.1).
    rewrite cover_nil, cover_cons in Hcov. unfold over in Hcov.
    rewrite decide_True in Hcov by (unfold covers; lia). lia.
  - exfalso. destruct H1 as (_ & ? & _). specialize (Hcov a.1).
    rewrite cover_nil, cover_cons in Hcov. unfold over in Hcov.
    rewrite decide_True in Hcov by (unfold covers; lia). lia.
  - destruct H1 as (Ha1 & Ha2 & H1), H2 as (Hb1 & Hb2 & H2).
    assert (∀ x, (over x a + cover x t1 = over x b + cover x t2)%nat) as Hc.
    { intros x. specialize (Hcov x). by rewrite !cover_cons in Hcov. }
    assert (∀ x, x ≤ a.1 + a.2 → cover x t1 = 0%nat) as Ht1
      by (intros; eapply separated_cover_below; [done|lia]).
    assert (∀ x, x ≤ b.1 + b.2 → cover x t2 = 0%nat) as Ht2
      by (intros; eapply separated_cover_below; [done|lia]).
    assert (a.1 = b.1) as Hstart.
    { destruct (Z.lt_trichotomy a.1 b.1) as [Hlt|[?|Hlt]]; [|done|]; exfalso.
      - specialize (Hc a.1). rewrite (Ht2 a.1) in Hc by lia.
        unfold over, covers in Hc. repeat case_decide; lia.
      - specialize (Hc b.1). rewrite (Ht1 b.1) in Hc by lia.
        unfold over, covers in Hc. repeat case_decide; lia. }
    assert (a.2 = b.2) as Hsize.
    { destruct (Z.lt_trichotomy a.2 b.2) as [Hlt|[?|Hlt]]; [|done|]; exfalso.
      - specialize (Hc (a.1 + a.2)). rewrite Ht1 in Hc by lia.
        unfold over, covers in Hc. repeat case_decide; lia.
      - specialize (Hc (b.1 + b.2)). rewrite Ht2 in Hc by lia.
        unfold over, covers in Hc. repeat case_decide; lia. }
    assert (a = b) as -> by (destruct a, b; simpl in *; congruence).
    f_equal. apply (IH t2 (b.1 + b.2 + 1)); [done..|].
    intros x. specialize (Hc x). lia.
Qed.

Lemma separated_lookup_lt l :
  ∀ lo i j a b, separated lo l → (i < j)%nat →
                l !! i = Some a → l !! j = Some b → a.1 + a.2 < b.1.
Proof.
  induction l as [|c t IH]; intros lo i j a b Hs Hij Hi Hj; [done|].
  destruct Hs as (_ & _ & Ht). destruct j as [|j]; [lia|]. simpl in Hj.
  destruct i as [|i]; simpl in Hi.
  - injection Hi as ->. apply list_elem_of_lookup_2 in Hj.
    destruct (separated_bound _ _ _ Ht Hj). lia.
  - apply (IH _ i j a b Ht); [lia|done..].
Qed.

(** A lower bound on the starts of a list of blocks. *)
Lemma starts_bounded (l : list block) : ∃ lo, ∀ b, b ∈ l → lo ≤ b.1.
Proof.
  induction l as [|a t [lo IH]].
  - exists 0. intros b Hb. by apply elem_of_nil in Hb.
  - exists (Z.min lo a.1). intros b [->|Hb]%elem_of_cons; [lia|].
    specialize (IH b Hb). lia.
Qed.

Lemma defragmented_separated l lo :
  positive l → (∀ x, (cover x l ≤ 1)%nat) → (∀ b, b ∈ l → lo ≤ b.1) →
  separated lo (defragmented l).
Proof.
  intros Hpos Hcov Hlo. apply coalesce_separated, sorted_chain.
  - apply list_sort_sorted.
  - eapply positive_perm; [symmetry; apply list_sort_perm|done].
  - intros x. by rewrite (cover_perm x _ _ (list_sort_perm l)).
  - intros b Hb. apply Hlo. by rewrite <-(list_sort_perm l).
Qed.

Lemma cover_defragmented x l : positive l → cover x (defragmented l) = cover x l.
Proof.
  intros Hpos. unfold defragmented. rewrite cover_coalesce.
  - apply cover_perm, list_sort_perm.
  - eapply positive_perm; [symmetry; apply list_sort_perm|done].
Qed.

Lemma defragmented_positive l : positive l → positive (defragmented l).
Proof.
  intros Hpos. apply coalesce_positive.
  eapply positive_perm; [symmetry; apply list_sort_perm|done].
Qed.

(** Two free lists lying over the same indices defragment to the same list. *)
Lemma defragmented_unique l1 l2 :
  positive l1 → positive l2 → (∀ x, (cover x l1 ≤ 1)%nat) →
  (∀ x, cover x l1 = cover x l2) →
  defragmented l1 = defragmented l2.
Proof.
  intros Hp1 Hp2 Hle Heq.
  destruct (starts_bounded (l1 ++ l2)) as [lo Hlo].
  apply (separated_unique _ _ lo).
  - apply defragmented_separated; [done..|].
    intros b Hb. apply Hlo, elem_of_app. by left.
  - apply defragmented_separated; [done| |].
    + intros x. by rewrite <-Heq.
    + intros b Hb. apply Hlo, elem_of_app. by right.
  - intros x. by rewrite !cover_defragmented.
Qed.

Lemma defragmented_idem l :
  positive l → (∀ x, (cover x l ≤ 1)%nat) →
  defragmented (defragmented l) = defragmented l.
Proof.
  intros Hpos Hcov. apply defragmented_unique.
  - by apply defragmented_positive.
  - done.
  - intros x. by rewrite cover_defragmented.
  - intros x. by apply cover_defragmented.
Qed.

(** ** Further facts about the methods *)

(** The free list of a state under the invariant: positive sizes, and no
    index under two free blocks. *)
Lemma partitions_free capacity self :
  partitions capacity self →
  positive (free_blocks self) ∧ ∀ x, (cover x (free_blocks self) ≤ 1)%nat.
Proof.
  intros [_ Hpos Hcov]. unfold positive, blocks in *.
  apply Forall_app in Hpos as [_ Hpos]. split; [done|].
  intros x. specialize (Hcov x). rewrite cover_app in Hcov. case_decide; lia.
Qed.

Lemma _defragment_if_needed_cases self :
  (_defragment_if_needed self).2 = self ∨
  (_defragment_if_needed self).2 = (defragment self).2.
Proof. unfold _defragment_if_needed. case_decide; auto. Qed.

Lemma defragment_allocations self :
  allocations (defragment self).2 = allocations self ∧
  buffer (defragment self).2 = buffer self ∧
  free_blocks (defragment self).2 = defragmented (free_blocks self).
Proof. by rewrite defragment_eq. Qed.

Lemma delete_elem_lookup (l : list block) i b :
  b ∈ delete i l → ∃ j, j ≠ i ∧ l !! j = Some b.
Proof.
  intros [k Hk]%list_elem_of_lookup. destruct (decide (k < i)%nat).
  - exists k. rewrite list_lookup_delete_lt in Hk by done. split; [lia|done].
  - exists (S k). rewrite list_lookup_delete_ge in Hk by lia. split; [lia|done].
Qed.

(** Without two allocations at one start, removing the allocation found
    at [ptr] leaves none starting there. *)
Lemma NoDup_delete_start (l : list block) i ptr size :
  NoDup l.*1 → l !! i = Some (ptr, size) →
  ∀ b, b ∈ delete i l → b.1 ≠ ptr.
Proof.
  intros Hnd Hi b (j & Hj & Hb)%delete_elem_lookup Heq.
  apply Hj. apply (NoDup_lookup _ j i ptr Hnd).
  - rewrite list_lookup_fmap, Hb. simpl. by rewrite Heq.
  - by rewrite list_lookup_fmap, Hi.
Qed.

(** X13: in every state, when the requested size is positive and within
    the capacity and no free block is large enough, [allocate] raises the
    out-of-memory error and leaves the state as it was. *)
Lemma allocate_no_fit size self :
  0 < size ≤ buffer_size self →
  (∀ b, b ∈ free_blocks self → b.2 < size) →
  allocate size self = (Raise OutOfMemoryError, self).
Proof.
  intros Hsize Hnone.
  destruct (allocate size self) as [[start|e] self'] eqn:E.
  - apply allocate_Return in E as (_ & mid & bs & Hmid & Hle & _).
    apply list_elem_of_lookup_2, Hnone in Hmid. simpl in Hmid. lia.
  - apply allocate_Raise in E as [-> [[? _]|[(_ & ? & _)|(_ & -> & _)]]];
      [lia..|done].
Qed.

Lemma allocate_no_fit_witness :
  let self := run [Allocate 60] (new 100) in
  allocate 50 self = (Raise OutOfMemoryError, self).
Proof.
  intros self. apply (allocate_no_fit 50 self).
  - by vm_compute.
  - assert (free_blocks self = [(60, 40)]) as -> by (by vm_compute).
    intros b ->%list_elem_of_singleton. simpl. lia.
Defined.

Lemma StronglySorted_lookup_lt {A} (R : relation A) (l : list A) :
  StronglySorted R l →
  ∀ i j a b, (i < j)%nat → l !! i = Some a → l !! j = Some b → R a b.
Proof.
  induction 1 as [|c t Hs IH Hc]; intros i j a b Hij Hi Hj; [done|].
  destruct j as [|j]; [lia|]. simpl in Hj. destruct i as [|i]; simpl in Hi.
  - injection Hi as ->. rewrite Forall_forall in Hc.
    by eapply Hc, list_elem_of_lookup_2.
  - apply (IH i j); [lia|done..].
Qed.

(** On a free list in ascending order of size, the search stops at a block
    of the least sufficient size: the order the loop relies on. *)
Lemma allocate_sorted_smallest size self start self' :
  StronglySorted (λ a b : block, a.2 ≤ b.2) (free_blocks self) →
  allocate size self = (Return start, self') →
  ∃ block_size,
    (start, block_size) ∈ free_blocks self ∧ size ≤ block_size ∧
    ∀ b, b ∈ free_blocks self → size ≤ b.2 → block_size ≤ b.2.
Proof.
  intros Hs (_ & mid & bs & Hmid & Hle & Hprev & _)%allocate_Return.
  exists bs. split_and!; [by eapply list_elem_of_lookup_2|done|].
  intros b [j Hj]%list_elem_of_lookup Hb.
  destruct (decide (mid ≤ j)%nat) as [Hmj|Hmj].
  - destruct (decide (mid = j)) as [->|]; [rewrite Hmid in Hj; by injection Hj as <-|].
    by apply (StronglySorted_lookup_lt _ _ Hs mid j (start, bs) b ltac:(lia)).
  - destruct Hprev as [->|(prev & Hp & Hlt)]; [lia|].
    destruct (decide (j = pred mid)) as [->|].
    + rewrite Hp in Hj. injection Hj as <-. lia.
    + pose proof (StronglySorted_lookup_lt _ _ Hs j (pred mid) b prev
                    ltac:(lia) Hj Hp). simpl in *. lia.
Qed.

Lemma buffer_size_new size : buffer_size (new size) = Z.max 0 size.
Proof. unfold buffer_size, len. simpl. rewrite length_replicate. lia. Qed.

(** Whenever [__init__] returns, it returns [new buffer_size]. *)
Lemma init_Return py size self :
  __init__ py size = Return self → self = new size.
Proof.
  unfold __init__, repeat_None, new. repeat case_decide; intros [= <-]; [|done].
  assert (Z.to_nat size = 0%nat) as -> by lia. done.
Qed.

Lemma buffer_size_nonneg self : 0 ≤ buffer_size self.
Proof. unfold buffer_size, len. lia. Qed.

Lemma _defragment_if_needed_allocations self :
  allocations (_defragment_if_needed self).2 = allocations self ∧
  buffer (_defragment_if_needed self).2 = buffer self.
Proof.
  destruct (_defragment_if_needed_cases self) as [->| ->]; [done|].
  by destruct (defragment_allocations self) as (-> & -> & _).
Qed.

(** * The specification's claims *)

(** Claim C1, evaluated on the code: after [allocate(2)], [allocate(2)],
    [free(0)] on an allocator of size 10 the free list is
    [[(4, 6), (0, 2)]], and [allocate(2)] returns 4, taking its block from
    the free block of size 6 although the free block [(0, 2)] is large
    enough and smaller; the block taken is not a best-fit choice. *)
Theorem allocate_not_best_fit :
  let self := run [Allocate 2; Allocate 2; Free 0] (new 10) in
  free_blocks self = [(4, 6); (0, 2)] ∧
  (allocate 2 self).1 = Return 4 ∧
  free_blocks (allocate 2 self).2 = [(6, 4); (0, 2)] ∧
  ¬ best_fit (free_blocks self) 2 (4, 6).
Proof.
  split_and!; [by vm_compute..|].
  intros (_ & _ & Hmin). destruct (Hmin (0, 2)) as [?|[? ?]]; simpl in *.
  - vm_compute. right; left.
  - lia.
  - lia.
  - lia.
Qed.

(** Claim C2, evaluated on the code: after four [allocate(1)] and then
    [free(0)], [free(2)] on an allocator of size 10 the free list is
    [[(4, 6), (0, 1), (2, 1)]], and [allocate(6)] raises the out-of-memory
    error although the free block [(4, 6)] has size 6. *)
Theorem allocate_out_of_memory_with_fit :
  let self :=
    run [Allocate 1; Allocate 1; Allocate 1; Allocate 1; Free 0; Free 2]
        (new 10) in
  free_blocks self = [(4, 6); (0, 1); (2, 1)] ∧
  allocate 6 self = (Raise OutOfMemoryError, self) ∧
  ∃ b, b ∈ free_blocks self ∧ 6 ≤ b.2.
Proof.
  split_and!; [by vm_compute..|].
  exists (4, 6). split; [vm_compute; left|simpl; lia].
Qed.

(** Claim C3: for an allocator constructed with a positive capacity, after
    any sequence of [allocate], [free] and [defragment] calls the ranges
    of all allocations and free blocks are pairwise disjoint, their union
    is exactly [[0, capacity)], every stored size is at least 1, and no
    two allocations share a start. *)
Theorem partition_invariant (capacity : Z) (calls : list call) :
  0 < capacity →
  let self := run calls (new capacity) in
  buffer_size self = capacity ∧
  (∀ b, b ∈ blocks self → 1 ≤ b.2) ∧
  (∀ i j a b, i ≠ j → blocks self !! i = Some a → blocks self !! j = Some b →
              ∀ x, ¬ (covers x a ∧ covers x b)) ∧
  (∀ x, 0 ≤ x < capacity ↔ ∃ b, b ∈ blocks self ∧ covers x b) ∧
  NoDup (allocations self).*1.
Proof.
  intros Hc self.
  assert (partitions capacity self) as Hp
    by (apply reachable_partitions; [done|by exists calls]).
  split_and!.
  - by destruct Hp.
  - destruct Hp as [_ Hpos _]. by apply Forall_forall.
  - intros i j a b. by apply partitions_disjoint with capacity.
  - intros x. by apply partitions_union.
  - by apply partitions_NoDup with capacity.
Qed.

Lemma partition_invariant_witness :
  let self := run [Allocate 3; Allocate 4; Free 0; Defragment] (new 10) in
  buffer_size self = 10 ∧
  (∀ b, b ∈ blocks self → 1 ≤ b.2) ∧
  (∀ i j a b, i ≠ j → blocks self !! i = Some a → blocks self !! j = Some b →
              ∀ x, ¬ (covers x a ∧ covers x b)) ∧
  (∀ x, 0 ≤ x < 10 ↔ ∃ b, b ∈ blocks self ∧ covers x b) ∧
  NoDup (allocations self).*1.
Proof.
  apply (partition_invariant 10 [Allocate 3; Allocate 4; Free 0; Defragment]).
  lia.
Defined.

(** Claim C4, refuted as stated: constructing an allocator of size 0 does
    not fail, even on a machine with no memory to spare; it returns an
    allocator. *)
Lemma init_zero_succeeds :
  __init__ (cpython64 0) 0 = Return (new 0) ∧
  __init__ (cpython64 0) 0 ≠ Raise InvalidSizeError.
Proof. split; [reflexivity|discriminate]. Qed.

(** Claim C4, amended: construction validates nothing.  It never raises
    the invalid-size error; a size that is not positive (and fits an
    index) is accepted, giving an allocator of capacity 0 with no
    allocations and the free block [(0, buffer_size)]; and whenever
    construction succeeds the allocator starts with no allocations and
    the one free block [(0, buffer_size)], with capacity
    [max(0, buffer_size)], so that for a positive size the free block
    spans the whole buffer. *)
Theorem init_no_validation (py : interpreter) (size : Z) :
  (∀ msg, __init__ py size ≠ Raise (ValueError msg)) ∧
  (- maxsize py - 1 ≤ size ≤ maxsize py → size ≤ 0 →
   __init__ py size = Return (new size) ∧ buffer_size (new size) = 0) ∧
  (∀ self, __init__ py size = Return self →
           allocations self = [] ∧
           free_blocks self = [(0, size)] ∧
           buffer_size self = Z.max 0 size).
Proof.
  split_and!.
  - intros msg. unfold __init__, repeat_None. by repeat case_decide.
  - intros Hfits Hsize. split; [|rewrite buffer_size_new; lia].
    unfold __init__, repeat_None, new.
    rewrite decide_False, decide_True by lia.
    assert (Z.to_nat size = 0%nat) as -> by lia. done.
  - intros self ->%init_Return. split_and!; [done..|apply buffer_size_new].
Qed.

Lemma init_no_validation_witness :
  (__init__ (cpython64 1000) (-5) = Return (new (-5)) ∧
   buffer_size (new (-5)) = 0) ∧
  (allocations (new 20) = [] ∧
   free_blocks (new 20) = [(0, 20)] ∧
   buffer_size (new 20) = Z.max 0 20).
Proof.
  split.
  - apply (init_no_validation (cpython64 1000) (-5)); by vm_compute.
  - apply (init_no_validation (cpython64 1000) 20). by vm_compute.
Defined.

(** Claim C5: in every state [allocate(size)] with [size <= 0] raises the
    invalid-size error and with [size > capacity] raises the
    capacity-exceeded error; the out-of-memory error is raised only for
    [0 < size <= capacity]; and the three errors are pairwise different
    exceptions, so the caller can tell which condition occurred. *)
Theorem allocate_error_conditions (self : FixedBufferAllocator) (size : Z) :
  (size ≤ 0 → allocate size self = (Raise InvalidSizeError, self)) ∧
  (size > buffer_size self →
   allocate size self = (Raise CapacityExceededError, self)) ∧
  ((allocate size self).1 = Raise OutOfMemoryError →
   0 < size ≤ buffer_size self) ∧
  InvalidSizeError ≠ CapacityExceededError ∧
  InvalidSizeError ≠ OutOfMemoryError ∧
  CapacityExceededError ≠ OutOfMemoryError.
Proof.
  pose proof (buffer_size_nonneg self).
  split_and!; [| | |discriminate..].
  - intros. unfold allocate. by rewrite decide_True.
  - intros. unfold allocate. rewrite decide_False, decide_True; [done|lia..].
  - destruct (allocate size self) as [[start|e] self'] eqn:E; [done|].
    simpl. intros [= ->].
    by apply allocate_Raise in E as [_ [[_ [=]]|[(_ & _ & [=])|[? _]]]].
Qed.

Lemma allocate_error_conditions_witness :
  allocate 0 (new 100) = (Raise InvalidSizeError, new 100) ∧
  allocate 150 (new 100) = (Raise CapacityExceededError, new 100) ∧
  0 < 50 ≤ buffer_size (run [Allocate 60] (new 100)).
Proof.
  split; [apply (allocate_error_conditions (new 100) 0); lia|].
  split; [apply (allocate_error_conditions (new 100) 150); by vm_compute|].
  apply (allocate_error_conditions (run [Allocate 60] (new 100)) 50).
  by vm_compute.
Defined.

(** Claim C6: in every reachable state [free(ptr)] raises the
    invalid-pointer error exactly when [ptr] is outside [[0, capacity)] or
    no live allocation starts at [ptr]; and when [free(ptr)] succeeds, a
    second [free(ptr)] right after it raises the invalid-pointer error. *)
Theorem free_invalid_pointer (self : FixedBufferAllocator) (ptr : Z) :
  reachable self →
  ((free ptr self).1 = Raise InvalidPointerError ↔
   ¬ 0 ≤ ptr < buffer_size self ∨ ∀ b, b ∈ allocations self → b.1 ≠ ptr) ∧
  ((free ptr self).1 = Return () →
   (free ptr (free ptr self).2).1 = Raise InvalidPointerError).
Proof.
  intros Hr. pose proof (reachable_NoDup self Hr) as Hnd.
  destruct (free_cases ptr self)
    as [[E Hbad]|(Hin & i & size & Hi & _ & E)]; rewrite E; simpl.
  - done.
  - split.
    + split; [done|]. intros [?|Hnone]; [done|]. exfalso.
      by apply (Hnone (ptr, size)); [eapply list_elem_of_lookup_2|].
    + intros _.
      set (self' := (_defragment_if_needed (released self i ptr size)).2).
      destruct (_defragment_if_needed_allocations (released self i ptr size))
        as [Ha Hb]. fold self' in Ha, Hb. simpl in Ha, Hb.
      destruct (free_cases ptr self')
        as [[E' _]|(_ & i' & size' & Hi' & _ & _)]; [by rewrite E'|].
      exfalso. rewrite Ha in Hi'.
      by apply (NoDup_delete_start _ i ptr size Hnd Hi (ptr, size'));
        [eapply list_elem_of_lookup_2|].
Qed.

Lemma free_invalid_pointer_witness :
  let self := run [Allocate 5; Allocate 5] (new 20) in
  ((free 5 self).1 = Raise InvalidPointerError ↔
   ¬ 0 ≤ 5 < buffer_size self ∨ ∀ b, b ∈ allocations self → b.1 ≠ 5) ∧
  ((free 5 self).1 = Return () →
   (free 5 (free 5 self).2).1 = Raise InvalidPointerError).
Proof.
  apply (free_invalid_pointer (run [Allocate 5; Allocate 5] (new 20)) 5).
  exists 20, [Allocate 5; Allocate 5]. reflexivity.
Defined.

(** Claim C7: whenever an [allocate] or [free] call raises, the buffer,
    the allocation list and the free list are exactly as before the call. *)
Theorem failure_atomicity (self self' : FixedBufferAllocator) (e : exception) :
  (∀ size, allocate size self = (Raise e, self') → self' = self) ∧
  (∀ ptr, free ptr self = (Raise e, self') → self' = self).
Proof.
  split.
  - intros size E. by apply allocate_Raise in E as [-> _].
  - intros ptr E.
    destruct (free_cases ptr self) as [[E' _]|(_ & i & size & _ & _ & E')];
      rewrite E' in E; by injection E.
Qed.

Lemma failure_atomicity_witness :
  let self := run [Allocate 60] (new 100) in
  (allocate 50 self).2 = self ∧ (free 7 self).2 = self.
Proof.
  intros self. split.
  - apply (proj1 (failure_atomicity self (allocate 50 self).2 OutOfMemoryError) 50).
    by vm_compute.
  - apply (proj2 (failure_atomicity self (free 7 self).2 InvalidPointerError) 7).
    by vm_compute.
Defined.

(** Claim C10: whenever [allocate(size)] returns, the free block it took
    has size at least [size], so the recorded allocation lies within that
    block, and the free block is either removed (equal sizes) or replaced
    by a remainder of positive size. *)
Theorem allocate_block_large_enough
    (self self' : FixedBufferAllocator) (size start : Z) :
  allocate size self = (Return start, self') →
  ∃ (mid : nat) (block_size : Z),
    free_blocks self !! mid = Some (start, block_size) ∧
    0 < size ≤ block_size ∧
    allocations self' = allocations self ++ [(start, size)] ∧
    (∀ x, covers x (start, size) → covers x (start, block_size)) ∧
    ((block_size = size ∧ free_blocks self' = delete mid (free_blocks self)) ∨
     (0 < block_size - size ∧
      free_blocks self' =
        <[mid := (start + size, block_size - size)]> (free_blocks self))).
Proof.
  intros (Hsize & mid & bs & Hmid & Hle & _ & ->)%allocate_Return.
  exists mid, bs. split_and!; [done|lia|done|done| |].
  - unfold covers. simpl. lia.
  - unfold allocated. simpl. case_decide; [left|right]; split; (done || lia).
Qed.

Lemma allocate_block_large_enough_witness :
  ∃ (mid : nat) (block_size : Z),
    free_blocks (new 20) !! mid = Some (0, block_size) ∧
    0 < 5 ≤ block_size ∧
    allocations (allocate 5 (new 20)).2 = allocations (new 20) ++ [(0, 5)] ∧
    (∀ x, covers x (0, 5) → covers x (0, block_size)) ∧
    ((block_size = 5 ∧
      free_blocks (allocate 5 (new 20)).2 = delete mid (free_blocks (new 20))) ∨
     (0 < block_size - 5 ∧
      free_blocks (allocate 5 (new 20)).2 =
        <[mid := (0 + 5, block_size - 5)]> (free_blocks (new 20)))).
Proof.
  apply (allocate_block_large_enough (new 20) (allocate 5 (new 20)).2 5 0).
  by vm_compute.
Defined.

(** Claim C8: in every reachable state, when [allocate(n)] returns
    [offset] and [free(offset)] is called next, the call succeeds and a
    following [defragment()] leaves the same free list as [defragment()]
    run on the state before the [allocate]. *)
Theorem allocate_free_roundtrip
    (self s1 s2 : FixedBufferAllocator) (n offset : Z) (r : result unit) :
  reachable self →
  allocate n self = (Return offset, s1) →
  free offset s1 = (r, s2) →
  r = Return () ∧
  free_blocks (defragment s2).2 = free_blocks (defragment self).2.
Proof.
  intros Hr Ha Hf.
  destruct (reachable_inv self Hr) as [(c & Hc & Hp)|(c & Hc & ->)]; last first.
  { apply allocate_Return in Ha as [Hsize _].
    rewrite buffer_size_new in Hsize. lia. }
  apply allocate_Return in Ha as (Hsize & mid & bs & Hmid & Hle & _ & ->).
  pose proof (allocated_partitions c self n mid offset bs Hp
                ltac:(lia) Hmid Hle) as Hp1.
  set (s1 := allocated self n mid offset bs) in *.
  assert (allocations s1 !! length (allocations self) = Some (offset, n)) as Hnew
    by (by apply list_lookup_middle).
  destruct (free_cases offset s1) as [[E Hbad]|(Hin & i & size & Hi & _ & E)];
    rewrite E in Hf; injection Hf as <- <-.
  { exfalso. destruct Hbad as [Hout|Hnone].
    - apply Hout. rewrite (partitions_size _ _ Hp1).
      apply (partitions_union c s1 offset Hp1).
      exists (offset, n). split.
      + apply elem_of_app. left. by eapply list_elem_of_lookup_2.
      + unfold covers. simpl. lia.
    - by apply (Hnone (offset, n)); [eapply list_elem_of_lookup_2|]. }
  split; [done|].
  assert (i = length (allocations self)) as ->.
  { apply (NoDup_lookup _ _ _ offset (partitions_NoDup c s1 Hp1));
      rewrite list_lookup_fmap; [by rewrite Hi|by rewrite Hnew]. }
  assert (size = n) as -> by congruence.
  pose proof (released_partitions c s1 _ offset n Hp1 Hi) as Hp2.
  set (s := released s1 (length (allocations self)) offset n) in *.
  destruct (partitions_free c s Hp2) as [Hpos2 Hle2].
  destruct (partitions_free c self Hp) as [Hpos Hle0].
  assert (∀ x, cover x (free_blocks s) = cover x (free_blocks self)) as Heq.
  { intros x. destruct Hp as [_ _ Hcov], Hp2 as [_ _ Hcov2].
    specialize (Hcov x). specialize (Hcov2 x). rewrite <-Hcov in Hcov2.
    unfold blocks in Hcov2. rewrite !cover_app in Hcov2.
    replace (allocations s) with (allocations self) in Hcov2; [lia|].
    unfold s, released, s1, allocated. simpl.
    by rewrite delete_middle, app_nil_r. }
  destruct (defragment_allocations self) as (_ & _ & ->).
  destruct (defragment_allocations (_defragment_if_needed s).2) as (_ & _ & ->).
  destruct (_defragment_if_needed_cases s) as [->| ->].
  - by apply defragmented_unique.
  - destruct (defragment_allocations s) as (_ & _ & ->).
    rewrite defragmented_idem by done. by apply defragmented_unique.
Qed.

Lemma allocate_free_roundtrip_witness :
  let self := run [Allocate 5; Allocate 5; Free 0] (new 20) in
  let s1 := (allocate 3 self).2 in
  (free 10 s1).1 = Return () ∧
  free_blocks (defragment (free 10 s1).2).2 = free_blocks (defragment self).2.
Proof.
  intros self s1.
  apply (allocate_free_roundtrip self s1 (free 10 s1).2 3 10 (free 10 s1).1).
  - exists 20, [Allocate 5; Allocate 5; Free 0]. reflexivity.
  - by vm_compute.
  - by vm_compute.
Defined.

(** Claim C9: in every reachable state [defragment()] succeeds, a second
    [defragment()] right after it changes nothing, and after a
    [defragment()] no free block starts where another free block ends. *)
Theorem defragment_idempotent (self : FixedBufferAllocator) :
  reachable self →
  let once := (defragment self).2 in
  (defragment self).1 = Return () ∧
  defragment once = (Return (), once) ∧
  ∀ i j a b, i ≠ j →
             free_blocks once !! i = Some a → free_blocks once !! j = Some b →
             a.1 + a.2 ≠ b.1.
Proof.
  intros Hr once. split; [by rewrite defragment_eq|].
  destruct (reachable_inv self Hr) as [(c & Hc & Hp)|(c & Hc & ->)].
  - destruct (partitions_free c self Hp) as [Hpos Hle].
    destruct (starts_bounded (free_blocks self)) as [lo Hlo].
    pose proof (defragmented_separated _ lo Hpos Hle Hlo) as Hsep.
    unfold once. rewrite !defragment_eq. cbn [snd buffer allocations free_blocks].
    fold (defragmented (free_blocks self)).
    fold (defragmented (defragmented (free_blocks self))).
    rewrite defragmented_idem by done. split; [done|].
    intros i j a b Hij Hi Hj.
    destruct (separated_bound _ _ a Hsep ltac:(by eapply list_elem_of_lookup_2)).
    destruct (separated_bound _ _ b Hsep ltac:(by eapply list_elem_of_lookup_2)).
    destruct (decide (i < j)%nat).
    + pose proof (separated_lookup_lt _ lo i j a b Hsep ltac:(lia) Hi Hj). lia.
    + pose proof (separated_lookup_lt _ lo j i b a Hsep ltac:(lia) Hj Hi). lia.
  - unfold once. rewrite !defragment_eq. split; [done|].
    intros [|i] [|j] a b Hij; simpl; (done || by destruct i || by destruct j).
Qed.

Lemma defragment_idempotent_witness :
  let self :=
    run [Allocate 5; Allocate 5; Allocate 5; Allocate 5; Free 0; Free 5]
        (new 20) in
  let once := (defragment self).2 in
  (free_blocks self = [(0, 5); (5, 5)] ∧ free_blocks once = [(0, 10)]) ∧
  (defragment self).1 = Return () ∧
  defragment once = (Return (), once) ∧
  ∀ i j a b, i ≠ j →
             free_blocks once !! i = Some a → free_blocks once !! j = Some b →
             a.1 + a.2 ≠ b.1.
Proof.
  intros self once. split; [by vm_compute|].
  apply (defragment_idempotent self).
  by exists 20, [Allocate 5; Allocate 5; Allocate 5; Allocate 5; Free 0; Free 5].
Defined.

(** * Further properties of the methods *)

(** ** Sizes are conserved *)

Lemma total_size_app l1 l2 :
  total_size (l1 ++ l2) = total_size l1 + total_size l2.
Proof. induction l1 as [|b l1 IH]; simpl; lia. Qed.

Lemma total_size_perm l1 l2 : l1 ≡ₚ l2 → total_size l1 = total_size l2.
Proof. induction 1; simpl; lia. Qed.

Lemma total_size_delete (l : list block) k b :
  l !! k = Some b → total_size l = b.2 + total_size (delete k l).
Proof.
  intros Hk. rewrite <-(take_drop_middle l k b Hk) at 1.
  rewrite delete_take_drop, !total_size_app. simpl. lia.
Qed.

Lemma total_size_insert (l : list block) k b b' :
  l !! k = Some b → total_size (<[k := b']> l) = total_size l - b.2 + b'.2.
Proof.
  intros Hk. rewrite <-(take_drop_middle l k b Hk) at 2.
  rewrite insert_take_drop by (by eapply lookup_lt_Some).
  rewrite !total_size_app. simpl. lia.
Qed.

Lemma total_size_coalesce_from rest :
  ∀ current,
    total_size (coalesce_from current rest) = current.2 + total_size rest.
Proof.
  induction rest as [|next_block rest IH]; intros current; simpl; [lia|].
  case_decide; simpl; rewrite IH; simpl; lia.
Qed.

Lemma total_size_defragmented l : total_size (defragmented l) = total_size l.
Proof.
  unfold defragmented. rewrite <-(total_size_perm _ _ (list_sort_perm l)).
  destruct (list_sort l) as [|current rest]; [done|].
  apply total_size_coalesce_from.
Qed.

(** The two lists of a state together. *)
Lemma step_total_size self c :
  total_size (allocations (step self c)) + total_size (free_blocks (step self c))
  = total_size (allocations self) + total_size (free_blocks self).
Proof.
  destruct c as [size|ptr|]; simpl.
  - destruct (allocate size self) as [[start|e] self'] eqn:E; simpl.
    + apply allocate_Return in E as (_ & mid & bs & Hmid & _ & _ & ->).
      unfold allocated. simpl. rewrite total_size_app. simpl. case_decide.
      * subst. rewrite (total_size_delete _ mid _ Hmid). simpl. lia.
      * rewrite (total_size_insert _ mid _ _ Hmid). simpl. lia.
    + by apply allocate_Raise in E as [-> _].
  - destruct (free_cases ptr self) as [[-> _]|(_ & i & size & Hi & _ & ->)];
      [done|]. simpl.
    rewrite (total_size_delete _ i _ Hi). simpl.
    destruct (_defragment_if_needed_cases (released self i ptr size)) as [->| ->].
    + simpl. rewrite total_size_app. simpl. lia.
    + destruct (defragment_allocations (released self i ptr size))
        as (-> & _ & ->).
      rewrite total_size_defragmented. simpl. rewrite total_size_app. simpl. lia.
  - destruct (defragment_allocations self) as (-> & _ & ->).
    by rewrite total_size_defragmented.
Qed.

(** X1: after any sequence of calls on an allocator built with any integer
    size, the sizes of the allocations and of the free blocks add up to
    the size the allocator was built with. *)
Theorem total_size_conserved (capacity : Z) (calls : list call) :
  let self := run calls (new capacity) in
  total_size (allocations self) + total_size (free_blocks self) = capacity.
Proof.
  induction calls as [|c calls IH] using rev_ind; simpl.
  - lia.
  - unfold run in *. rewrite foldl_snoc, step_total_size. apply IH.
Qed.

(** ** The buffer is never written *)

Lemma step_buffer self c : buffer (step self c) = buffer self.
Proof.
  destruct c as [size|ptr|]; simpl.
  - destruct (allocate size self) as [[start|e] self'] eqn:E; simpl.
    + by apply allocate_Return in E as (_ & mid & bs & _ & _ & _ & ->).
    + by apply allocate_Raise in E as [-> _].
  - destruct (free_cases ptr self) as [[-> _]|(_ & i & size & _ & _ & ->)];
      [done|]. simpl.
    by destruct (_defragment_if_needed_allocations (released self i ptr size))
      as [_ ->].
  - by destruct (defragment_allocations self) as (_ & -> & _).
Qed.

Lemma run_buffer calls : ∀ self, buffer (run calls self) = buffer self.
Proof.
  induction calls as [|c calls IH]; intros self; [done|].
  unfold run in *. simpl. by rewrite IH, step_buffer.
Qed.

(** X2: no call ever changes the buffer, so the capacity reported by the
    [buffer_size] property after any sequence of calls is the one the
    allocator was built with, or 0 when it was built with a negative size. *)
Theorem buffer_size_fixed (capacity : Z) (calls : list call) :
  buffer (run calls (new capacity)) = replicate (Z.to_nat capacity) None ∧
  buffer_size (run calls (new capacity)) = Z.max 0 capacity.
Proof.
  unfold buffer_size. rewrite run_buffer. split; [done|].
  apply buffer_size_new.
Qed.

(** ** The exceptions the methods can raise *)

(** X3: in every state, [allocate] returns a start or raises one of its
    three errors, and [free] returns or raises the invalid-pointer error;
    neither ever fails with an [IndexError] from its list accesses. *)
Theorem methods_raise_only (self : FixedBufferAllocator) (n : Z) :
  ((∃ start, (allocate n self).1 = Return start) ∨
   (allocate n self).1 = Raise InvalidSizeError ∨
   (allocate n self).1 = Raise CapacityExceededError ∨
   (allocate n self).1 = Raise OutOfMemoryError) ∧
  ((free n self).1 = Return () ∨ (free n self).1 = Raise InvalidPointerError).
Proof.
  split.
  - destruct (allocate n self) as [[start|e] self'] eqn:E; simpl; [eauto|].
    apply allocate_Raise in E
      as [_ [(_ & ->)|[(_ & _ & ->)|(_ & -> & _)]]]; auto.
  - destruct (free_cases n self) as [[-> _]|(_ & i & size & _ & _ & ->)]; auto.
Qed.

(** ** [defragment] in any state *)

Lemma coalesce_from_length rest :
  ∀ current, (length (coalesce_from current rest) ≤ S (length rest))%nat.
Proof.
  induction rest as [|next_block rest IH]; intros current; simpl; [lia|].
  case_decide; simpl.
  - specialize (IH (current.1, current.2 + next_block.2)). lia.
  - specialize (IH next_block). lia.
Qed.

Lemma defragmented_length l : (length (defragmented l) ≤ length l)%nat.
Proof.
  unfold defragmented. rewrite <-(Permutation_length (list_sort_perm l)).
  destruct (list_sort l) as [|current rest]; [done|].
  apply coalesce_from_length.
Qed.

(** X4: in every state, well formed or not, [defragment] returns without
    raising, leaves the allocations and the buffer as they are, and does
    not lengthen the free list. *)
Theorem defragment_total (self : FixedBufferAllocator) :
  (defragment self).1 = Return () ∧
  allocations (defragment self).2 = allocations self ∧
  buffer (defragment self).2 = buffer self ∧
  (length (free_blocks (defragment self).2) ≤ length (free_blocks self))%nat.
Proof.
  rewrite defragment_eq. split_and!; [done..|]. apply defragmented_length.
Qed.

(** ** Allocation and release in reachable states *)

(** X5: in every reachable state, a block returned by [allocate] lies
    inside the buffer: its start is not negative and its end does not
    pass the capacity. *)
Theorem allocate_within_buffer
    (self self' : FixedBufferAllocator) (size start : Z) :
  reachable self →
  allocate size self = (Return start, self') →
  0 < size ∧ 0 ≤ start ∧ start + size ≤ buffer_size self.
Proof.
  intros Hr Ha.
  destruct (reachable_inv self Hr) as [(c & Hc & Hp)|(c & Hc & ->)]; last first.
  { apply allocate_Return in Ha as [Hsize _].
    rewrite buffer_size_new in Hsize. lia. }
  apply allocate_Return in Ha as (Hsize & mid & bs & Hmid & Hle & _ & ->).
  pose proof (allocated_partitions c self size mid start bs Hp
                ltac:(lia) Hmid Hle) as Hp1.
  assert ((start, size) ∈ blocks (allocated self size mid start bs)) as Hin.
  { unfold blocks, allocated. simpl. rewrite !elem_of_app, list_elem_of_singleton.
    auto. }
  rewrite (partitions_size _ _ Hp).
  assert (0 ≤ start < c).
  { apply (partitions_union c _ start Hp1). exists (start, size).
    split; [done|]. unfold covers. simpl. lia. }
  assert (0 ≤ start + size - 1 < c).
  { apply (partitions_union c _ (start + size - 1) Hp1). exists (start, size).
    split; [done|]. unfold covers. simpl. lia. }
  lia.
Qed.

Lemma allocate_within_buffer_witness :
  0 < 3 ∧ 0 ≤ 5 ∧ 5 + 3 ≤ buffer_size (run [Allocate 5] (new 20)).
Proof.
  apply (allocate_within_buffer (run [Allocate 5] (new 20))
           (allocate 3 (run [Allocate 5] (new 20))).2 3 5).
  - exists 20, [Allocate 5]. reflexivity.
  - by vm_compute.
Defined.

Lemma NoDup_start_unique (l : list block) i ptr size size' :
  NoDup l.*1 → l !! i = Some (ptr, size) → (ptr, size') ∈ l → size = size'.
Proof.
  intros Hnd Hi [j Hj]%list_elem_of_lookup.
  assert (i = j) as ->.
  { apply (NoDup_lookup _ i j ptr Hnd); rewrite list_lookup_fmap;
      [by rewrite Hi|by rewrite Hj]. }
  congruence.
Qed.

Lemma filter_other_starts (l : list block) ptr :
  ptr ∉ l.*1 → filter (λ b : block, b.1 ≠ ptr) l = l.
Proof.
  induction l as [|a t IH]; [done|]. simpl.
  rewrite not_elem_of_cons. intros [Hne Ht].
  rewrite filter_cons_True by done. f_equal. by apply IH.
Qed.

Lemma NoDup_delete_filter (l : list block) ptr :
  NoDup l.*1 →
  ∀ i size, l !! i = Some (ptr, size) →
            delete i l = filter (λ b : block, b.1 ≠ ptr) l.
Proof.
  induction l as [|a t IH]; intros Hnd i size Hi; [done|].
  simpl in Hnd. apply NoDup_cons in Hnd as [Ha Hnd].
  destruct i as [|i]; simpl in *.
  - injection Hi as ->. rewrite filter_cons_False by (simpl; auto).
    symmetry. by apply filter_other_starts.
  - assert (a.1 ≠ ptr) as Hne.
    { intros <-. apply Ha. apply list_elem_of_fmap. exists (a.1, size).
      split; [done|]. by eapply list_elem_of_lookup_2. }
    rewrite filter_cons_True by done. f_equal. by eapply IH.
Qed.

(** X6: in every reachable state, [free] succeeds on the start of every
    live allocation, and afterwards every index of the released block
    lies under a free block. *)
Theorem free_live_allocation (self : FixedBufferAllocator) (ptr size : Z) :
  reachable self →
  (ptr, size) ∈ allocations self →
  (free ptr self).1 = Return () ∧
  ∀ x, ptr ≤ x < ptr + size →
       ∃ b, b ∈ free_blocks (free ptr self).2 ∧ covers x b.
Proof.
  intros Hr Hin.
  destruct (reachable_inv self Hr) as [(c & Hc & Hp)|(c & Hc & ->)]; last first.
  { by apply elem_of_nil in Hin. }
  pose proof (partitions_NoDup c self Hp) as Hnd.
  assert (1 ≤ size) as Hsize.
  { destruct Hp as [_ Hpos _]. unfold positive in Hpos.
    rewrite Forall_forall in Hpos. apply (Hpos (ptr, size)).
    unfold blocks. apply elem_of_app. by left. }
  destruct (free_cases ptr self) as [[E Hbad]|(_ & i & size' & Hi & _ & E)];
    rewrite E; simpl.
  { exfalso. destruct Hbad as [Hout|Hnone]; [|by apply (Hnone (ptr, size))].
    apply Hout. rewrite (partitions_size _ _ Hp).
    apply (partitions_union c self ptr Hp). exists (ptr, size). split.
    - unfold blocks. apply elem_of_app. by left.
    - unfold covers. simpl. lia. }
  split; [done|]. intros x Hx.
  assert (size' = size) as -> by (by eapply NoDup_start_unique).
  pose proof (released_partitions c self i ptr size Hp Hi) as Hp1.
  destruct (partitions_free c _ Hp1) as [Hpos1 _].
  apply cover_pos_elem.
  assert (1 ≤ cover x (free_blocks (released self i ptr size)))%nat as Hcov.
  { apply (cover_elem x _ (ptr, size)); [|done].
    unfold released. simpl. rewrite elem_of_app, list_elem_of_singleton. auto. }
  destruct (_defragment_if_needed_cases (released self i ptr size)) as [->| ->];
    [done|].
  destruct (defragment_allocations (released self i ptr size)) as (_ & _ & ->).
  by rewrite cover_defragmented.
Qed.

Lemma free_live_allocation_witness :
  let self := run [Allocate 5; Allocate 5] (new 20) in
  (free 5 self).1 = Return () ∧
  ∀ x, 5 ≤ x < 5 + 5 → ∃ b, b ∈ free_blocks (free 5 self).2 ∧ covers x b.
Proof.
  apply (free_live_allocation (run [Allocate 5; Allocate 5] (new 20)) 5 5).
  - exists 20, [Allocate 5; Allocate 5]. reflexivity.
  - vm_compute. right; left.
Defined.

(** X7: in every reachable state, a successful [free(ptr)] leaves exactly
    the allocations that do not start at [ptr], in their order. *)
Theorem free_removes_allocation (self : FixedBufferAllocator) (ptr : Z) :
  reachable self →
  (free ptr self).1 = Return () →
  allocations (free ptr self).2 =
    filter (λ b : block, b.1 ≠ ptr) (allocations self).
Proof.
  intros Hr. pose proof (reachable_NoDup self Hr) as Hnd.
  destruct (free_cases ptr self) as [[E _]|(_ & i & size & Hi & _ & E)];
    rewrite E; simpl; [done|]. intros _.
  destruct (_defragment_if_needed_allocations (released self i ptr size))
    as [-> _]. simpl. by eapply NoDup_delete_filter.
Qed.

Lemma free_removes_allocation_witness :
  let self := run [Allocate 5; Allocate 5; Allocate 2] (new 20) in
  allocations (free 5 self).2 =
    filter (λ b : block, b.1 ≠ 5) (allocations self).
Proof.
  apply (free_removes_allocation
           (run [Allocate 5; Allocate 5; Allocate 2] (new 20)) 5).
  - exists 20, [Allocate 5; Allocate 5; Allocate 2]. reflexivity.
  - by vm_compute.
Defined.

(** ** Defragmenting with nothing allocated *)

Lemma defragmented_whole capacity l :
  0 < capacity → positive l →
  (∀ x, cover x l = if decide (0 ≤ x < capacity) then 1%nat else 0%nat) →
  defragmented l = [(0, capacity)].
Proof.
  intros Hc Hpos Hcov. apply (separated_unique _ _ 0).
  - apply defragmented_separated; [done| |].
    + intros x. rewrite Hcov. case_decide; lia.
    + intros b Hb. unfold positive in Hpos. rewrite Forall_forall in Hpos.
      specialize (Hpos b Hb).
      pose proof (cover_elem b.1 l b Hb ltac:(unfold covers; lia)) as H1.
      rewrite Hcov in H1. case_decide; lia.
  - simpl. lia.
  - intros x. rewrite cover_defragmented, Hcov, cover_singleton by done.
    unfold over, covers. simpl. repeat case_decide; lia.
Qed.

Lemma defragment_empty capacity self :
  0 < capacity → partitions capacity self →
  buffer self = buffer (new capacity) → allocations self = [] →
  (defragment self).2 = new capacity.
Proof.
  intros Hc Hp Hbuf Hnil. rewrite defragment_eq. cbn [snd].
  destruct Hp as [_ Hpos Hcov]. unfold blocks in *. rewrite Hnil in *.
  simpl in Hpos, Hcov. fold (defragmented (free_blocks self)).
  rewrite (defragmented_whole capacity) by done. by rewrite Hbuf.
Qed.

Lemma released_last_new capacity self i ptr size :
  0 < capacity → partitions capacity self →
  buffer self = buffer (new capacity) →
  allocations self !! i = Some (ptr, size) →
  delete i (allocations self) = [] →
  (_defragment_if_needed (released self i ptr size)).2 = new capacity.
Proof.
  intros Hc Hp Hbuf Hi Hnil. unfold _defragment_if_needed.
  cbn [allocations released]. rewrite Hnil.
  rewrite decide_True
    by (unfold len; simpl; rewrite length_app; simpl; lia).
  apply defragment_empty; [done|by apply released_partitions|done..].
Qed.

(** X8: a reachable state with no live allocation is the state of a new
    allocator, whatever calls led to it: the free list is again the one
    block [(0, capacity)]. *)
Theorem no_allocation_is_new (capacity : Z) (self : FixedBufferAllocator) :
  reachable_from capacity self →
  allocations self = [] →
  self = new capacity.
Proof.
  intros Hr. destruct (decide (0 < capacity)) as [Hc|Hc]; last first.
  { intros _. apply reachable_degenerate; [lia|done]. }
  destruct Hr as [calls ->].
  induction calls as [|c calls IH] using rev_ind; [done|].
  unfold run in *. rewrite foldl_snoc.
  set (prev := foldl step (new capacity) calls) in *.
  assert (partitions capacity prev) as Hp
    by (apply reachable_partitions; [done|by exists calls]).
  assert (buffer prev = buffer (new capacity)) as Hbuf by apply run_buffer.
  destruct c as [size|ptr|]; simpl.
  - destruct (allocate size prev) as [[start|e] self'] eqn:E; simpl.
    + apply allocate_Return in E as (_ & mid & bs & _ & _ & _ & ->).
      unfold allocated. simpl. intros Hnil. by apply app_nil in Hnil as [_ [=]].
    + by apply allocate_Raise in E as [-> _].
  - destruct (free_cases ptr prev) as [[-> _]|(_ & i & size & Hi & _ & ->)];
      [done|]. simpl.
    destruct (_defragment_if_needed_allocations (released prev i ptr size))
      as [-> _]. simpl. intros Hnil.
    by apply released_last_new.
  - destruct (defragment_allocations prev) as (-> & _ & _). intros Hnil.
    by apply defragment_empty.
Qed.

Lemma no_allocation_is_new_witness :
  run [Allocate 5; Allocate 5; Allocate 5; Free 5; Free 0; Free 10] (new 20)
  = new 20.
Proof.
  apply no_allocation_is_new; [|by vm_compute].
  by exists [Allocate 5; Allocate 5; Allocate 5; Free 5; Free 0; Free 10].
Defined.

(** X9: on an allocator built with a positive capacity, the [free] that
    releases the last live allocation always triggers the defragmentation
    and leaves the state of a new allocator. *)
Theorem free_last_allocation
    (capacity : Z) (self : FixedBufferAllocator) (ptr : Z) :
  0 < capacity → reachable_from capacity self →
  (free ptr self).1 = Return () →
  allocations (free ptr self).2 = [] →
  (free ptr self).2 = new capacity.
Proof.
  intros Hc Hr. pose proof (reachable_partitions capacity self Hc Hr) as Hp.
  destruct (free_cases ptr self) as [[E _]|(_ & i & size & Hi & _ & E)];
    rewrite E; simpl; [done|]. intros _.
  destruct (_defragment_if_needed_allocations (released self i ptr size))
    as [-> _]. intros Hnil.
  unfold _defragment_if_needed. rewrite Hnil.
  rewrite decide_True
    by (unfold len; simpl; rewrite length_app; simpl; lia).
  apply defragment_empty; [done| |simpl|done].
  - by apply released_partitions.
  - destruct Hr as [calls ->]. apply run_buffer.
Qed.

Lemma free_last_allocation_witness :
  (free 5 (run [Allocate 5; Allocate 5; Free 0] (new 20))).2 = new 20.
Proof.
  apply free_last_allocation; [lia| |by vm_compute..].
  by exists [Allocate 5; Allocate 5; Free 0].
Defined.

(** ** The free list after [defragment] *)

Lemma reachable_separated self :
  reachable self →
  (∃ capacity, self = new capacity ∧ capacity ≤ 0) ∨
  ∃ lo, separated lo (free_blocks (defragment self).2).
Proof.
  intros [(c & Hc & Hp)|(c & Hc & ->)]%reachable_inv; [right|left; eauto].
  destruct (partitions_free c self Hp) as [Hpos Hle].
  destruct (starts_bounded (free_blocks self)) as [lo Hlo].
  exists lo. destruct (defragment_allocations self) as (_ & _ & ->).
  by apply defragmented_separated.
Qed.

(** X10: in every reachable state, [defragment] leaves the free list in
    ascending order of start, each block starting beyond the end of the
    blocks before it. *)
Theorem defragment_ascending (self : FixedBufferAllocator) :
  reachable self →
  ∀ i j a b, (i < j)%nat →
             free_blocks (defragment self).2 !! i = Some a →
             free_blocks (defragment self).2 !! j = Some b →
             a.1 + a.2 < b.1.
Proof.
  intros [(c & -> & Hc)|[lo Hsep]]%reachable_separated i j a b Hij Hi Hj.
  - rewrite defragment_eq in Hj. simpl in Hj.
    destruct j as [|[|j]]; [lia|done..].
  - by apply (separated_lookup_lt _ lo i j a b Hsep).
Qed.

Lemma defragment_ascending_witness : (0, 5).1 + (0, 5).2 < (10, 10).1.
Proof.
  apply (defragment_ascending
           (run [Allocate 5; Allocate 5; Allocate 5; Free 0; Free 10] (new 20)))
    with (i := 0%nat) (j := 1%nat).
  - by exists 20, [Allocate 5; Allocate 5; Allocate 5; Free 0; Free 10].
  - lia.
  - by vm_compute.
  - by vm_compute.
Defined.

(** X11: in every reachable state, [defragment] does not change which
    indices are free: an index lies under a free block afterwards exactly
    when it did before. *)
Theorem defragment_same_free_indices (self : FixedBufferAllocator) (x : Z) :
  reachable self →
  (∃ b, b ∈ free_blocks (defragment self).2 ∧ covers x b) ↔
  (∃ b, b ∈ free_blocks self ∧ covers x b).
Proof.
  intros [(c & Hc & Hp)|(c & Hc & ->)]%reachable_inv;
    [|by rewrite defragment_eq].
  destruct (partitions_free c self Hp) as [Hpos _].
  destruct (defragment_allocations self) as (_ & _ & ->).
  pose proof (cover_defragmented x _ Hpos) as Hcov.
  split; intros (b & Hb & Hxb); apply cover_pos_elem;
    pose proof (cover_elem x _ b Hb Hxb); lia.
Qed.

Lemma defragment_same_free_indices_witness :
  let self := run [Allocate 5; Allocate 5; Allocate 5; Free 0; Free 5] (new 20) in
  (∃ b, b ∈ free_blocks (defragment self).2 ∧ covers 7 b) ↔
  (∃ b, b ∈ free_blocks self ∧ covers 7 b).
Proof.
  apply (defragment_same_free_indices
           (run [Allocate 5; Allocate 5; Allocate 5; Free 0; Free 5] (new 20)) 7).
  by exists 20, [Allocate 5; Allocate 5; Allocate 5; Free 0; Free 5].
Defined.

(** X12: on an allocator built with a positive capacity, every free block
    left by [defragment] is a whole free stretch of the buffer: the index
    before it is outside the buffer or under a live allocation, and so is
    the index after it. *)
Theorem defragment_blocks_maximal
    (capacity : Z) (self : FixedBufferAllocator) (b : block) :
  0 < capacity → reachable_from capacity self →
  b ∈ free_blocks (defragment self).2 →
  (b.1 = 0 ∨ ∃ a, a ∈ allocations self ∧ covers (b.1 - 1) a) ∧
  (b.1 + b.2 = capacity ∨ ∃ a, a ∈ allocations self ∧ covers (b.1 + b.2) a).
Proof.
  intros Hc Hr Hb.
  pose proof (reachable_partitions capacity self Hc Hr) as Hp.
  pose proof (defragment_partitions capacity self Hp) as Hp'.
  destruct (reachable_separated self) as [(c & -> & ?)|[lo Hsep]].
  { by exists capacity. }
  { destruct Hp as [Hsz _ _]. rewrite buffer_size_new in Hsz. lia. }
  destruct (defragment_allocations self) as (Hallocs & _ & _).
  set (self' := (defragment self).2) in *.
  destruct (separated_bound _ _ b Hsep Hb) as [_ Hb2].
  assert (b ∈ blocks self') as Hbin by (apply elem_of_app; by right).
  assert (0 ≤ b.1 < capacity) as Hlo
    by (apply (partitions_union capacity self' b.1 Hp'); exists b;
        split; [done|unfold covers; lia]).
  assert (0 ≤ b.1 + b.2 - 1 < capacity) as Hhi
    by (apply (partitions_union capacity self' (b.1 + b.2 - 1) Hp'); exists b;
        split; [done|unfold covers; lia]).
  apply list_elem_of_lookup in Hb as [i Hi].
  assert (∀ x, 0 ≤ x < capacity → ¬ covers x b →
               (x = b.1 - 1 ∨ x = b.1 + b.2) →
               ∃ a, a ∈ allocations self ∧ covers x a) as Hside.
  { intros x Hx Hnot Hxb.
    apply (partitions_union capacity self' x Hp') in Hx as (a & Ha & Hxa).
    apply elem_of_app in Ha as [Ha|Ha]; [exists a; by rewrite <-Hallocs|].
    exfalso. apply list_elem_of_lookup in Ha as [j Hj].
    destruct (separated_bound _ _ a Hsep ltac:(by eapply list_elem_of_lookup_2)).
    unfold covers in *.
    destruct (Nat.lt_trichotomy i j) as [Hij|[->|Hij]].
    - pose proof (separated_lookup_lt _ lo i j b a Hsep Hij Hi Hj). lia.
    - rewrite Hi in Hj. injection Hj as ->. lia.
    - pose proof (separated_lookup_lt _ lo j i a b Hsep Hij Hj Hi). lia. }
  split.
  - destruct (decide (b.1 = 0)); [by left|right].
    apply Hside; [lia|unfold covers; lia|auto].
  - destruct (decide (b.1 + b.2 = capacity)); [by left|right].
    apply Hside; [lia|unfold covers; lia|auto].
Qed.

Lemma defragment_blocks_maximal_witness :
  let self := run [Allocate 5; Allocate 5; Allocate 5; Free 5] (new 20) in
  (5 = 0 ∨ ∃ a, a ∈ allocations self ∧ covers (5 - 1) a) ∧
  (5 + 5 = 20 ∨ ∃ a, a ∈ allocations self ∧ covers (5 + 5) a).
Proof.
  apply (defragment_blocks_maximal 20
           (run [Allocate 5; Allocate 5; Allocate 5; Free 5] (new 20)) (5, 5)).
  - lia.
  - by exists [Allocate 5; Allocate 5; Allocate 5; Free 5].
  - vm_compute. left.
Defined.

(** ** The search on a free list in ascending order of size *)

(** The order the search needs for a given size: in the list, every block
    that is too small comes before every block that is large enough. *)
Lemma search_partitioned_finds (fb : list block) (size : Z) :
  (∀ j k a b, (j < k)%nat → fb !! j = Some a → fb !! k = Some b →
              b.2 < size → a.2 < size) →
  (∃ b, b ∈ fb ∧ size ≤ b.2) →
  ∀ n l r,
    n = Z.to_nat (r - l + 1) → 0 ≤ l → r < len fb →
    (∀ j b, Z.of_nat j < l → fb !! j = Some b → b.2 < size) →
    (r + 1 = len fb ∨ (0 ≤ r ∧ ∃ b, fb !! Z.to_nat r = Some b ∧ size ≤ b.2)) →
    ∃ mid, search fb size l r = Return (Some mid).
Proof.
  intros Hs (fit & Hfit & Hfits) n.
  induction (lt_wf n) as [n _ IH]. intros l r -> Hl Hr Hleft Hright.
  rewrite search_turn. destruct (decide (l ≤ r)) as [Hlr|Hlr].
  - cbv zeta. pose proof (div2_between _ _ Hlr) as Hmid.
    set (mid := (l + r) `div` 2) in *.
    destruct (getitem_in_range fb mid ltac:(lia)) as [[start bs] Hget].
    rewrite Hget. rewrite getitem_nonneg in Hget by lia.
    destruct (decide (size ≤ bs)) as [Hbs|Hbs].
    + destruct (decide (mid = 0)); [eauto|].
      destruct (getitem_in_range fb (mid - 1) ltac:(lia)) as [prev Hprev].
      rewrite Hprev. rewrite getitem_nonneg in Hprev by lia.
      destruct (decide (prev.2 < size)); [eauto|].
      apply (IH (Z.to_nat (mid - 1 - l + 1))); [lia|done|lia|lia|done|].
      right. split; [lia|]. exists prev. split; [done|lia].
    + apply (IH (Z.to_nat (r - (mid + 1) + 1))); [lia|done|lia|lia| |done].
      intros j b Hj Hb. destruct (decide (j = Z.to_nat mid)) as [->|].
      * rewrite Hget in Hb. injection Hb as <-. simpl. lia.
      * apply (Hs j (Z.to_nat mid) b (start, bs)); [lia|done|done|simpl; lia].
  - exfalso. destruct Hright as [Hend|(Hr0 & b & Hb & Hbs)].
    + apply list_elem_of_lookup in Hfit as [j Hj].
      pose proof (lookup_lt_Some _ _ _ Hj). unfold len in *.
      specialize (Hleft j fit ltac:(lia) Hj). lia.
    + specialize (Hleft (Z.to_nat r) b ltac:(lia) Hb). lia.
Qed.

Lemma search_sorted_finds (fb : list block) (size : Z) :
  StronglySorted (λ a b : block, a.2 ≤ b.2) fb →
  (∃ b, b ∈ fb ∧ size ≤ b.2) →
  ∃ mid, search fb size 0 (len fb - 1) = Return (Some mid).
Proof.
  intros Hs Hfit.
  apply (search_partitioned_finds fb size) with (n := Z.to_nat (len fb - 1 - 0 + 1));
    [|done|done|lia|lia| |left; lia].
  - intros j k a b Hjk Ha Hb Hlt.
    pose proof (StronglySorted_lookup_lt _ _ Hs j k a b Hjk Ha Hb).
    simpl in *. lia.
  - intros j b Hj. lia.
Qed.

(** X14: when the free list is in ascending order of size and some free
    block is large enough, [allocate] succeeds and takes its block from a
    free block of the least sufficient size. *)
Theorem allocate_sorted_fit (self : FixedBufferAllocator) (size : Z) :
  StronglySorted (λ a b : block, a.2 ≤ b.2) (free_blocks self) →
  0 < size ≤ buffer_size self →
  (∃ b, b ∈ free_blocks self ∧ size ≤ b.2) →
  ∃ start block_size,
    (allocate size self).1 = Return start ∧
    (start, block_size) ∈ free_blocks self ∧ size ≤ block_size ∧
    ∀ b, b ∈ free_blocks self → size ≤ b.2 → block_size ≤ b.2.
Proof.
  intros Hs Hsize Hfit.
  destruct (search_sorted_finds _ size Hs Hfit) as [mid Hmid].
  destruct (allocate size self) as [[start|e] self'] eqn:E.
  - destruct (allocate_sorted_smallest size self start self' Hs E)
      as (bs & ? & ? & ?).
    exists start, bs. by split_and!.
  - apply allocate_Raise in E as [_ [[? _]|[(_ & ? & _)|(_ & _ & E)]]];
      [lia..|]. rewrite Hmid in E. done.
Qed.

Lemma allocate_sorted_fit_witness :
  let self :=
    run [Allocate 2; Allocate 2; Allocate 6; Free 0; Defragment] (new 20) in
  ∃ start block_size,
    (allocate 2 self).1 = Return start ∧
    (start, block_size) ∈ free_blocks self ∧ 2 ≤ block_size ∧
    ∀ b, b ∈ free_blocks self → 2 ≤ b.2 → block_size ≤ b.2.
Proof.
  intros self.
  assert (free_blocks self = [(0, 2); (10, 10)]) as Hfree by (by vm_compute).
  apply (allocate_sorted_fit self 2).
  - rewrite Hfree. repeat constructor; simpl; lia.
  - by vm_compute.
  - exists (0, 2). rewrite Hfree. split; [left|simpl; lia].
Defined.

(** ** Allocating from a new allocator *)

Lemma search_single (start block_size size : Z) :
  size ≤ block_size →
  search [(start, block_size)] size 0 (len [(start, block_size)] - 1)
  = Return (Some 0).
Proof.
  intros Hle. rewrite search_turn. unfold len. simpl.
  by rewrite decide_True by done.
Qed.

Lemma allocate_single buf allocs (start block_size size : Z) :
  0 < size ≤ block_size → block_size ≤ len buf →
  allocate size {| buffer := buf; allocations := allocs;
                   free_blocks := [(start, block_size)] |} =
  (Return start,
   {| buffer := buf; allocations := allocs ++ [(start, size)];
      free_blocks := if decide (block_size = size) then []
                     else [(start + size, block_size - size)] |}).
Proof.
  intros Hsize Hbuf. unfold allocate, buffer_size. simpl.
  rewrite decide_False, decide_False by lia.
  rewrite search_single by lia. simpl. by case_decide.
Qed.

Lemma run_back_to_back sizes :
  ∀ buf allocs (start block_size : Z),
    Forall (λ size, 0 < size) sizes →
    sum_sizes sizes ≤ block_size → 0 < block_size ≤ len buf →
    run (Allocate <$> sizes)
        {| buffer := buf; allocations := allocs;
           free_blocks := [(start, block_size)] |} =
    {| buffer := buf;
       allocations := allocs ++ back_to_back start sizes;
       free_blocks :=
         if decide (sum_sizes sizes = block_size) then []
         else [(start + sum_sizes sizes, block_size - sum_sizes sizes)] |}.
Proof.
  induction sizes as [|size sizes IH]; intros buf allocs start bs Hpos Hsum Hbs.
  - simpl. rewrite decide_False by lia.
    by rewrite app_nil_r, Z.add_0_r, Z.sub_0_r.
  - apply Forall_cons in Hpos as [Hsize Hpos]. simpl in Hsum.
    assert (0 ≤ sum_sizes sizes) as Hnonneg.
    { clear -Hpos. induction Hpos; simpl; lia. }
    unfold run in *. simpl. rewrite allocate_single by lia. simpl.
    destruct (decide (bs = size)) as [->|Hne].
    + destruct sizes as [|size' sizes].
      * simpl. by rewrite decide_True by lia.
      * apply Forall_cons in Hpos as [? Hpos']. simpl in Hsum, Hnonneg.
        assert (0 ≤ sum_sizes sizes) by (clear -Hpos'; induction Hpos'; simpl; lia).
        lia.
    + rewrite IH by (done || lia). rewrite <-(assoc_L (++)). simpl.
      f_equal. repeat case_decide; try lia; [done|]. f_equal. f_equal; lia.
Qed.

(** X15: on a new allocator of positive capacity, a run of [allocate]
    calls with positive sizes whose sum is within the capacity all
    succeed, placing the blocks back to back from index 0 in the order of
    the calls; what is left is one free block behind them, or none when
    the buffer is full. *)
Theorem allocate_back_to_back (capacity : Z) (sizes : list Z) :
  0 < capacity →
  Forall (λ size, 0 < size) sizes →
  sum_sizes sizes ≤ capacity →
  let self := run (Allocate <$> sizes) (new capacity) in
  allocations self = back_to_back 0 sizes ∧
  free_blocks self =
    if decide (sum_sizes sizes = capacity) then []
    else [(sum_sizes sizes, capacity - sum_sizes sizes)].
Proof.
  intros Hc Hpos Hsum. unfold new. simpl.
  rewrite run_back_to_back; [done..|].
  unfold len. rewrite length_replicate. lia.
Qed.

Lemma allocate_back_to_back_witness :
  let self := run (Allocate <$> [3; 4; 5]) (new 20) in
  allocations self = back_to_back 0 [3; 4; 5] ∧
  free_blocks self =
    if decide (sum_sizes [3; 4; 5] = 20) then []
    else [(sum_sizes [3; 4; 5], 20 - sum_sizes [3; 4; 5])].
Proof.
  apply (allocate_back_to_back 20 [3; 4; 5]).
  - lia.
  - repeat constructor.
  - simpl. lia.
Defined.

(** ** The length of the free list *)

Lemma separated_ends_NoDup lo l :
  separated lo l → NoDup ((λ b : block, b.1 + b.2) <$> l).
Proof.
  intros Hsep. apply NoDup_alt. intros i j x Hi Hj.
  apply list_lookup_fmap_Some in Hi as (a & -> & Ha).
  apply list_lookup_fmap_Some in Hj as (b & Hab & Hb).
  destruct (separated_bound _ _ a Hsep ltac:(by eapply list_elem_of_lookup_2)).
  destruct (separated_bound _ _ b Hsep ltac:(by eapply list_elem_of_lookup_2)).
  destruct (Nat.lt_trichotomy i j) as [Hij|[?|Hij]]; [exfalso|done|exfalso].
  - pose proof (separated_lookup_lt _ lo i j a b Hsep Hij Ha Hb). lia.
  - pose proof (separated_lookup_lt _ lo j i b a Hsep Hij Hb Ha). lia.
Qed.

(** Under the invariant, a free block of a separated free list ends at the
    end of the buffer or where a live allocation starts. *)
Lemma free_end_is_start capacity self lo b :
  partitions capacity self → separated lo (free_blocks self) →
  b ∈ free_blocks self →
  b.1 + b.2 = capacity ∨ b.1 + b.2 ∈ (allocations self).*1.
Proof.
  intros Hp Hsep Hb.
  destruct (separated_bound _ _ b Hsep Hb) as [_ Hb2].
  apply list_elem_of_lookup in Hb as [i Hi].
  assert (blocks self !! (length (allocations self) + i)%nat = Some b) as Hbi.
  { unfold blocks. rewrite lookup_app_r by lia.
    by replace (length (allocations self) + i - length (allocations self))%nat
      with i by lia. }
  assert (0 ≤ b.1 + b.2 - 1 < capacity) as Hhi.
  { apply (partitions_union capacity self _ Hp). exists b.
    split; [by eapply list_elem_of_lookup_2|unfold covers; lia]. }
  destruct (decide (b.1 + b.2 = capacity)); [by left|right].
  destruct (proj1 (partitions_union capacity self (b.1 + b.2) Hp) ltac:(lia))
    as (a & Ha & Hxa).
  apply elem_of_app in Ha as [Ha|Ha].
  - apply list_elem_of_lookup in Ha as [k Hk].
    pose proof (lookup_lt_Some _ _ _ Hk).
    assert (a.1 = b.1 + b.2) as <-; [|apply list_elem_of_fmap; exists a;
                                       split; [done|by eapply list_elem_of_lookup_2]].
    destruct (decide (a.1 = b.1 + b.2)); [done|]. exfalso.
    apply (partitions_disjoint capacity self k (length (allocations self) + i)
             a b Hp ltac:(lia)) with (x := b.1 + b.2 - 1);
      [unfold blocks; by apply lookup_app_l_Some|done|].
    unfold covers in *. lia.
  - exfalso. apply list_elem_of_lookup in Ha as [j Hj].
    destruct (separated_bound _ _ a Hsep ltac:(by eapply list_elem_of_lookup_2)).
    unfold covers in *.
    destruct (Nat.lt_trichotomy i j) as [Hij|[->|Hij]].
    + pose proof (separated_lookup_lt _ lo i j b a Hsep Hij Hi Hj). lia.
    + rewrite Hi in Hj. injection Hj as ->. lia.
    + pose proof (separated_lookup_lt _ lo j i a b Hsep Hij Hj Hi). lia.
Qed.

Lemma separated_length capacity self lo :
  partitions capacity self → separated lo (free_blocks self) →
  (length (free_blocks self) ≤ S (length (allocations self)))%nat.
Proof.
  intros Hp Hsep.
  rewrite <-(length_fmap (λ b : block, b.1 + b.2) (free_blocks self)).
  rewrite <-(length_fmap fst (allocations self)).
  change (S (length (allocations self).*1))
    with (length (capacity :: (allocations self).*1)).
  apply submseteq_length, NoDup_submseteq.
  - by eapply separated_ends_NoDup.
  - intros x (b & -> & Hb)%list_elem_of_fmap.
    destruct (free_end_is_start capacity self lo b Hp Hsep Hb) as [->|?].
    + left.
    + by right.
Qed.

(** X16: in every reachable state, [defragment] leaves at most one free
    block more than there are live allocations. *)
Theorem defragment_length_bound (self : FixedBufferAllocator) :
  reachable self →
  (length (free_blocks (defragment self).2) ≤ S (length (allocations self)))%nat.
Proof.
  intros Hr.
  destruct (reachable_inv self Hr) as [(c & Hc & Hp)|(c & Hc & ->)];
    [|rewrite defragment_eq; simpl; lia].
  destruct (reachable_separated self Hr) as [(c' & -> & ?)|[lo Hsep]].
  { destruct Hp as [Hsz _ _]. rewrite buffer_size_new in Hsz. lia. }
  destruct (defragment_allocations self) as (Ha & _ & _). rewrite <-Ha.
  eapply separated_length; [by apply defragment_partitions|done].
Qed.

Lemma defragment_length_bound_witness :
  let self := run [Allocate 5; Allocate 5; Allocate 5; Free 0; Free 5] (new 20) in
  (length (free_blocks (defragment self).2) ≤ S (length (allocations self)))%nat.
Proof.
  apply (defragment_length_bound
           (run [Allocate 5; Allocate 5; Allocate 5; Free 0; Free 5] (new 20))).
  by exists 20, [Allocate 5; Allocate 5; Allocate 5; Free 0; Free 5].
Defined.

Lemma step_length_bound capacity self c :
  partitions capacity self →
  (length (free_blocks self) ≤ 2 * length (allocations self) + 1)%nat →
  (length (free_blocks (step self c))
   ≤ 2 * length (allocations (step self c)) + 1)%nat.
Proof.
  intros Hp Hb. destruct c as [size|ptr|]; simpl.
  - destruct (allocate size self) as [[start|e] self'] eqn:E; simpl.
    + apply allocate_Return in E as (_ & mid & bs & Hmid & _ & _ & ->).
      unfold allocated. simpl. rewrite length_app. simpl. case_decide.
      * rewrite length_delete by eauto. lia.
      * rewrite length_insert. lia.
    + by apply allocate_Raise in E as [-> _].
  - destruct (free_cases ptr self) as [[-> _]|(_ & i & size & Hi & _ & ->)];
      [done|]. simpl.
    pose proof (released_partitions capacity self i ptr size Hp Hi) as Hp1.
    unfold _defragment_if_needed. case_decide as Hlen.
    + destruct (partitions_free capacity _ Hp1) as [Hpos Hle].
      destruct (starts_bounded (free_blocks (released self i ptr size)))
        as [lo Hlo].
      pose proof (defragmented_separated _ lo Hpos Hle Hlo) as Hsep.
      pose proof (defragment_partitions capacity _ Hp1) as Hp2.
      destruct (defragment_allocations (released self i ptr size))
        as (_ & _ & Hf). rewrite <-Hf in Hsep.
      pose proof (separated_length capacity _ lo Hp2 Hsep). lia.
    + unfold len in Hlen. cbn [snd]. lia.
  - destruct (defragment_allocations self) as (-> & _ & ->).
    pose proof (defragmented_length (free_blocks self)). lia.
Qed.

(** X17: in every reachable state the free list holds at most twice as
    many blocks as there are live allocations, plus one. *)
Theorem free_list_length_bound (self : FixedBufferAllocator) :
  reachable self →
  (length (free_blocks self) ≤ 2 * length (allocations self) + 1)%nat.
Proof.
  intros [capacity Hr]. destruct (decide (0 < capacity)) as [Hc|Hc]; last first.
  { rewrite (reachable_degenerate capacity self) by (lia || done). simpl. lia. }
  destruct Hr as [calls ->].
  induction calls as [|c calls IH] using rev_ind; [simpl; lia|].
  unfold run in *. rewrite foldl_snoc.
  apply (step_length_bound capacity); [|done].
  apply reachable_partitions; [done|by exists calls].
Qed.

Lemma free_list_length_bound_witness :
  let self := run [Allocate 5; Allocate 5; Allocate 5; Free 0; Free 10] (new 20) in
  (length (free_blocks self) ≤ 2 * length (allocations self) + 1)%nat.
Proof.
  apply (free_list_length_bound
           (run [Allocate 5; Allocate 5; Allocate 5; Free 0; Free 10] (new 20))).
  by exists 20, [Allocate 5; Allocate 5; Allocate 5; Free 0; Free 10].
Defined.

(** ** The search as a search for the first fit *)

(** X18: when, in the free list, every block too small for the request
    comes before every block large enough for it, and some block is
    large enough, [allocate] succeeds and takes the first block of the
    list that is large enough. *)
Theorem allocate_partitioned_first_fit (self : FixedBufferAllocator) (size : Z) :
  (∀ j k a b, (j < k)%nat →
              free_blocks self !! j = Some a → free_blocks self !! k = Some b →
              b.2 < size → a.2 < size) →
  0 < size ≤ buffer_size self →
  (∃ b, b ∈ free_blocks self ∧ size ≤ b.2) →
  ∃ (mid : nat) (start block_size : Z),
    (allocate size self).1 = Return start ∧
    free_blocks self !! mid = Some (start, block_size) ∧ size ≤ block_size ∧
    ∀ j b, (j < mid)%nat → free_blocks self !! j = Some b → b.2 < size.
Proof.
  intros Hpart Hsize Hfit.
  destruct (search_partitioned_finds _ size Hpart Hfit
              (Z.to_nat (len (free_blocks self) - 1 - 0 + 1))
              0 (len (free_blocks self) - 1) eq_refl ltac:(lia) ltac:(lia))
    as [m Hm].
  { intros j b Hj. lia. }
  { left. lia. }
  destruct (allocate size self) as [[start|e] self'] eqn:E.
  - apply allocate_Return in E as (_ & mid & bs & Hmid & Hle & Hprev & _).
    exists mid, start, bs. split_and!; [done..|].
    intros j b Hj Hb. destruct Hprev as [->|(prev & Hp & Hlt)]; [lia|].
    destruct (decide (j = pred mid)) as [->|].
    + rewrite Hp in Hb. by injection Hb as <-.
    + by apply (Hpart j (pred mid) b prev ltac:(lia)).
  - apply allocate_Raise in E as [_ [[? _]|[(_ & ? & _)|(_ & _ & E)]]];
      [lia..|]. rewrite Hm in E. done.
Qed.

Lemma allocate_partitioned_first_fit_witness :
  let self := run [Allocate 2; Allocate 2; Allocate 6; Free 0] (new 20) in
  ∃ (mid : nat) (start block_size : Z),
    (allocate 2 self).1 = Return start ∧
    free_blocks self !! mid = Some (start, block_size) ∧ 2 ≤ block_size ∧
    ∀ j b, (j < mid)%nat → free_blocks self !! j = Some b → b.2 < 2.
Proof.
  intros self.
  assert (free_blocks self = [(10, 10); (0, 2)]) as Hfree by (by vm_compute).
  apply (allocate_partitioned_first_fit self 2).
  - rewrite Hfree. intros [|[|j]] [|[|k]] a b Hjk Ha Hb; simpl in *;
      try done; try lia.
    injection Hb as <-. simpl. lia.
  - by vm_compute.
  - exists (0, 2). rewrite Hfree. split; [right; left|simpl; lia].
Defined.

(** ** Allocating and releasing at once *)

Lemma live_start_in_buffer self ptr size :
  reachable self → (ptr, size) ∈ allocations self →
  0 ≤ ptr < buffer_size self.
Proof.
  intros Hr Hin.
  destruct (reachable_inv self Hr) as [(c & Hc & Hp)|(c & Hc & ->)];
    [|by apply elem_of_nil in Hin].
  assert ((ptr, size) ∈ blocks self) as Hb by (apply elem_of_app; by left).
  rewrite (partitions_size _ _ Hp).
  apply (partitions_union c self ptr Hp). exists (ptr, size). split; [done|].
  destruct Hp as [_ Hpos _]. unfold positive in Hpos.
  rewrite Forall_forall in Hpos. specialize (Hpos _ Hb).
  unfold covers. simpl in *. lia.
Qed.

(** X19: in every reachable state, when [allocate] returns a start and
    [free] is called on it next, the list of live allocations is again
    the one before the [allocate]. *)
Theorem allocate_free_allocations
    (self s1 : FixedBufferAllocator) (n offset : Z) :
  reachable self →
  allocate n self = (Return offset, s1) →
  allocations (free offset s1).2 = allocations self.
Proof.
  intros Hr Ha.
  assert (reachable s1) as Hr1.
  { replace s1 with (step self (Allocate n)) by (simpl; by rewrite Ha).
    by apply reachable_step. }
  pose proof (reachable_NoDup s1 Hr1) as Hnd.
  apply allocate_Return in Ha as (Hsize & mid & bs & Hmid & Hle & _ & ->).
  set (s1 := allocated self n mid offset bs) in *.
  assert (allocations s1 !! length (allocations self) = Some (offset, n)) as Hnew
    by (by apply list_lookup_middle).
  destruct (free_cases offset s1) as [[E Hbad]|(Hin & i & size & Hi & _ & E)];
    rewrite E; simpl.
  - exfalso.
    assert ((offset, n) ∈ allocations s1) as Hlive
      by (by eapply list_elem_of_lookup_2).
    pose proof (live_start_in_buffer s1 offset n Hr1 Hlive).
    destruct Hbad as [?|Hnone]; [done|]. by apply (Hnone (offset, n)).
  - destruct (_defragment_if_needed_allocations (released s1 i offset size))
      as [-> _]. simpl.
    assert (i = length (allocations self)) as ->.
    { apply (NoDup_lookup _ _ _ offset Hnd); rewrite list_lookup_fmap;
        [by rewrite Hi|by rewrite Hnew]. }
    by rewrite delete_middle, app_nil_r.
Qed.

Lemma allocate_free_allocations_witness :
  let self := run [Allocate 5; Allocate 5; Free 0] (new 20) in
  allocations (free 10 (allocate 3 self).2).2 = allocations self.
Proof.
  intros self.
  apply (allocate_free_allocations self (allocate 3 self).2 3 10).
  - by exists 20, [Allocate 5; Allocate 5; Free 0].
  - by vm_compute.
Defined.
